(** * Widget page: access gate and list presenters

    A shallow embedding of [app/widget/page.tsx]: the code-lock gate
    ([handleButtonPress], [handleClear], the two mount effects, the
    fire-and-forget error timer), the appointment fetch
    ([loadAppointments]) and the two render-time sorts
    ([UpcomingAppointmentsView], [UrgentTodosView]).

    React state is modelled by explicit state passing over a record
    [World]; a click is one atomic step, since React flushes the state
    updates of a discrete event before the next event is dispatched. *)

From Stdlib Require Import ZArith Lia Ascii List Sorted Permutation.
From Stdlib Require String OrderedTypeEx.
From stdpp Require Import base gmap strings list.

(** ** Data model ([@/lib/types], as used by the page) *)

Inductive Tab := upcoming | urgent.

Inductive Priority := high | medium | low.

Record UrgentTodo := {
  todo_id : string;
  todo_title : string;
  done : bool;
  priority : Priority;
  dueAt : option Z          (* [dueAt?: number], a timestamp *)
}.

Record Appointment := {
  apt_id : string;
  apt_title : string;
  date : string;            (* ISO calendar date, YYYY-MM-DD *)
  start : string;           (* time of day, HH:MM *)
  durationMin : Z
}.

Definition CODE_LOCK : string := "333".
Definition STORAGE_KEY : string := "psa.widget.unlocked".

(** The component state ([useState] cells), the store's reactive output,
    the session storage, and the pending asynchronous work. *)
Record World := {
  unlocked : bool;
  code : string;
  error : bool;
  tab : Tab;
  appointments : list Appointment;
  urgentTodos : list UrgentTodo;
  sessionStorage : gmap string string;
  now : nat;                (* milliseconds *)
  timers : list nat;        (* deadlines of the pending timer callbacks *)
  fetches : nat;            (* [loadAppointments] calls in flight *)
  storeLoads : nat          (* [loadUrgentTodos] calls issued *)
}.

Definition setCode (c : string) (w : World) : World :=
  {| unlocked := unlocked w; code := c; error := error w; tab := tab w;
     appointments := appointments w; urgentTodos := urgentTodos w;
     sessionStorage := sessionStorage w; now := now w; timers := timers w;
     fetches := fetches w; storeLoads := storeLoads w |}.

Definition setError (b : bool) (w : World) : World :=
  {| unlocked := unlocked w; code := code w; error := b; tab := tab w;
     appointments := appointments w; urgentTodos := urgentTodos w;
     sessionStorage := sessionStorage w; now := now w; timers := timers w;
     fetches := fetches w; storeLoads := storeLoads w |}.

Definition setTab (t : Tab) (w : World) : World :=
  {| unlocked := unlocked w; code := code w; error := error w; tab := t;
     appointments := appointments w; urgentTodos := urgentTodos w;
     sessionStorage := sessionStorage w; now := now w; timers := timers w;
     fetches := fetches w; storeLoads := storeLoads w |}.

Definition setAppointments (l : list Appointment) (w : World) : World :=
  {| unlocked := unlocked w; code := code w; error := error w; tab := tab w;
     appointments := l; urgentTodos := urgentTodos w;
     sessionStorage := sessionStorage w; now := now w; timers := timers w;
     fetches := fetches w; storeLoads := storeLoads w |}.

Definition setUrgentTodos (l : list UrgentTodo) (w : World) : World :=
  {| unlocked := unlocked w; code := code w; error := error w; tab := tab w;
     appointments := appointments w; urgentTodos := l;
     sessionStorage := sessionStorage w; now := now w; timers := timers w;
     fetches := fetches w; storeLoads := storeLoads w |}.

(** [sessionStorage.setItem(k, v)] *)
Definition setItem (k v : string) (w : World) : World :=
  {| unlocked := unlocked w; code := code w; error := error w; tab := tab w;
     appointments := appointments w; urgentTodos := urgentTodos w;
     sessionStorage := <[k:=v]> (sessionStorage w); now := now w;
     timers := timers w; fetches := fetches w; storeLoads := storeLoads w |}.

(** [sessionStorage.getItem(k)]: [None] is JavaScript's [null]. *)
Definition getItem (k : string) (w : World) : option string :=
  sessionStorage w !! k.

(** [setTimeout(cb, delay)]: the callback is queued with its deadline; the
    page keeps no handle, so nothing can cancel it. *)
Definition setTimeout (delay : nat) (w : World) : World :=
  {| unlocked := unlocked w; code := code w; error := error w; tab := tab w;
     appointments := appointments w; urgentTodos := urgentTodos w;
     sessionStorage := sessionStorage w; now := now w;
     timers := timers w ++ [now w + delay];
     fetches := fetches w; storeLoads := storeLoads w |}.

(** [setUnlocked(true)].  The only call sites pass [true].  When the value
    changes, the effect with dependencies [[unlocked, loadUrgentTodos]]
    runs once more and, [unlocked] being true, calls [loadUrgentTodos()]
    and [loadAppointments()]; when the value is already [true] React bails
    out and no effect runs. *)
Definition setUnlocked_true (w : World) : World :=
  if unlocked w then w else
  {| unlocked := true; code := code w; error := error w; tab := tab w;
     appointments := appointments w; urgentTodos := urgentTodos w;
     sessionStorage := sessionStorage w; now := now w; timers := timers w;
     fetches := S (fetches w); storeLoads := S (storeLoads w) |}.

(** ** The access gate *)

(** The state of a fresh mount: the [useState] initial values. *)
Definition initial (storage : gmap string string) (store : list UrgentTodo)
    : World :=
  {| unlocked := false; code := ""; error := false; tab := upcoming;
     appointments := []; urgentTodos := store; sessionStorage := storage;
     now := 0; timers := []; fetches := 0; storeLoads := 0 |}.

(** The first effect (dependencies [[]], so it runs once, at mount). *)
Definition mountEffect (w : World) : World :=
  let stored := getItem STORAGE_KEY w in
  if decide (stored = Some "true") then setUnlocked_true w else w.

Definition mount (storage : gmap string string) (store : list UrgentTodo)
    : World :=
  mountEffect (initial storage store).

Definition handleButtonPress (digit : string) (w : World) : World :=
  let newCode := code w +:+ digit in
  let w := setCode newCode w in
  if decide (String.length newCode = 3) then
    if decide (newCode = CODE_LOCK) then
      setError false (setItem STORAGE_KEY "true" (setUnlocked_true w))
    else
      setTimeout 1000 (setError true w)
  else w.

Definition handleClear (w : World) : World :=
  setError false (setCode "" w).

(** The callback armed by a failed entry. *)
Definition timerCallback (w : World) : World :=
  setError false (setCode "" w).

(** The keypad: buttons 1..9 and 0, each calling [handleButtonPress] with
    [String(num)]. *)
Inductive Digit := D0 | D1 | D2 | D3 | D4 | D5 | D6 | D7 | D8 | D9.

Definition digitLabel (d : Digit) : string :=
  match d with
  | D0 => "0" | D1 => "1" | D2 => "2" | D3 => "3" | D4 => "4"
  | D5 => "5" | D6 => "6" | D7 => "7" | D8 => "8" | D9 => "9"
  end.

(** A click on a digit button.  The keypad is rendered only while the gate
    is locked ([if (!unlocked) return ...]) and every digit button carries
    [disabled={code.length >= 3}]; a disabled button dispatches no click. *)
Definition clickDigit (d : Digit) (w : World) : World :=
  if unlocked w then w
  else if decide (3 ≤ String.length (code w)) then w
  else handleButtonPress (digitLabel d) w.

(** The Clear button is on the lock screen too, and is never disabled. *)
Definition clickClear (w : World) : World :=
  if unlocked w then w else handleClear w.

(** Time passes: every callback whose deadline is reached runs, and leaves
    the queue. *)
Definition elapse (dt : nat) (w : World) : World :=
  let t := now w + dt in
  let due := filter (λ d, d ≤ t) (timers w) in
  let w := foldr (λ _ acc, timerCallback acc) w due in
  {| unlocked := unlocked w; code := code w; error := error w; tab := tab w;
     appointments := appointments w; urgentTodos := urgentTodos w;
     sessionStorage := sessionStorage w; now := t;
     timers := filter (λ d, t < d) (timers w);
     fetches := fetches w; storeLoads := storeLoads w |}.

(** ** JavaScript primitives used by the presenters *)

(** [a < b] on strings compares UTF-16 code units; on the ASCII text of
    ISO dates and times that is the byte order of [String.compare]. *)
Definition str_lt (a b : string) : bool := String.ltb a b.

(** [a >= b] is "not [a < b]". *)
Definition str_ge (a b : string) : bool := negb (str_lt a b).

(** [a.localeCompare(b)]: negative, zero or positive.  The collation is
    the host's.  It is modelled on the strings the page sorts: ISO dates
    (YYYY-MM-DD) and zero-padded times (HH:MM), where every collation
    compares digit by digit and so agrees with the code-unit order below.
    On other strings the host may order differently ("1:00" before
    "10:00" before "9:00"); a statement that depends on the order of the
    rows is made for well-formed dates and times only. *)
Definition localeCompare (a b : string) : Z :=
  match String.compare a b with
  | Lt => -1
  | Eq => 0
  | Gt => 1
  end%Z.

(** The numbers a comparator of this page can return: integers (rank and
    timestamp differences), the infinities and NaN
    ([Infinity - Infinity]). *)
Inductive Number := Fin (z : Z) | Infinity | NegInfinity | NaN.

Definition minus (a b : Number) : Number :=
  match a, b with
  | Fin x, Fin y => Fin (x - y)
  | Fin _, Infinity => NegInfinity
  | Fin _, NegInfinity => Infinity
  | Infinity, Fin _ => Infinity
  | Infinity, NegInfinity => Infinity
  | NegInfinity, Fin _ => NegInfinity
  | NegInfinity, Infinity => NegInfinity
  | Infinity, Infinity => NaN
  | NegInfinity, NegInfinity => NaN
  | NaN, _ => NaN
  | _, NaN => NaN
  end.

(** [n !== 0] *)
Definition nonzero (n : Number) : bool :=
  match n with
  | Fin z => negb (z =? 0)%Z
  | _ => true
  end.

(** [[...xs].sort(comparefn)]: the copy leaves the input alone;
    [Array.prototype.sort] is stable and reads the comparator through
    SortCompare, which turns NaN into +0 and otherwise only uses the sign.
    For a consistent comparator the result does not depend on the engine's
    algorithm; it is computed here by stable insertion. *)
Section ArraySort.
Context {A : Type} (comparefn : A → A → Number).

Definition SortCompare (x y : A) : Z :=
  match comparefn x y with
  | Fin z => z
  | Infinity => 1
  | NegInfinity => -1
  | NaN => 0
  end%Z.

Fixpoint insert (x : A) (l : list A) : list A :=
  match l with
  | [] => [x]
  | y :: l' =>
      if decide (SortCompare x y ≤ 0)%Z then x :: l else y :: insert x l'
  end.

Definition sort (l : list A) : list A := foldr insert [] l.

(** [x] may stand before [y]: the comparator does not put it after. *)
Definition precedes (x y : A) : Prop := (SortCompare x y ≤ 0)%Z.

(** [y] compares equal to [k]. *)
Definition tied (k y : A) : Prop := precedes k y ∧ precedes y k.

#[global] Instance tied_dec (k : A) : ∀ y, Decision (tied k y).
Proof. intros y. unfold tied, precedes. apply _. Defined.
End ArraySort.

(** ** The presenters *)

(** The comparator of [UpcomingAppointmentsView]. *)
Definition compareAppointments (a b : Appointment) : Number :=
  let dateCompare := localeCompare (date a) (date b) in
  if decide (dateCompare ≠ 0%Z) then Fin dateCompare
  else Fin (localeCompare (start a) (start b)).

(** What [UpcomingAppointmentsView] lists, top to bottom: each appointment
    of [sorted] with its [isToday] flag; [today] is
    [new Date().toISOString().split('T')[0]] at render time.  The empty
    list stands for the "No items" line. *)
Definition UpcomingAppointmentsView (appointments : list Appointment)
    (today : string) : list (Appointment * bool) :=
  let sorted := sort compareAppointments appointments in
  map (λ apt, (apt, bool_decide (date apt = today))) sorted.

Definition priorityRank (p : Priority) : Z :=
  match p with
  | high => 0
  | medium => 1
  | low => 2
  end%Z.

(** [x ?? Infinity] *)
Definition orInfinity (x : option Z) : Number :=
  match x with
  | Some z => Fin z
  | None => Infinity
  end.

(** The comparator of [UrgentTodosView]. *)
Definition compareUrgent (a b : UrgentTodo) : Number :=
  let rankDiff :=
    minus (Fin (priorityRank (priority a))) (Fin (priorityRank (priority b))) in
  if nonzero rankDiff then rankDiff
  else
    let dueA := orInfinity (dueAt a) in
    let dueB := orInfinity (dueAt b) in
    minus dueA dueB.

(** What [UrgentTodosView] lists; the empty list stands for the
    "No urgent todos" placeholder of the early return. *)
Definition UrgentTodosView (todos : list UrgentTodo) : list UrgentTodo :=
  if decide (length todos = 0) then []
  else sort compareUrgent todos.

(** [urgentTodos.filter((t) => !t.done)], computed by the page and passed
    to the view. *)
Definition upcomingUrgent (w : World) : list UrgentTodo :=
  List.filter (λ t, negb (done t)) (urgentTodos w).

(** ** The appointment fetch *)

(** How a statement ends. *)
Inductive Completion (A : Type) :=
  | Returns (a : A)
  | Throws (err : string).
Arguments Returns {A} a.
Arguments Throws {A} err.

(** The [items] property of the response body. *)
Inductive ItemsField :=
  | NotArray
  | ArrayOf (items : list Appointment).

(** The parsed body [data]: [ok] is the truthiness of [data.ok];
    [Nullish] is a body that parses to [null]. *)
Inductive Json :=
  | Nullish
  | Object (ok : bool) (items : ItemsField).

(** How [fetch] and [res.json()] end. *)
Inductive FetchOutcome :=
  | TransportFailure              (* [fetch] rejects *)
  | BodyNotJson                   (* [res.json()] rejects *)
  | Body (data : Json).

(** The [try] block of [loadAppointments], from the first [await] on. *)
Definition loadAppointments_try (r : FetchOutcome) (today : string)
    (w : World) : Completion World :=
  match r with
  | TransportFailure => Throws "TypeError: Failed to fetch"
  | BodyNotJson => Throws "SyntaxError: Unexpected token"
  | Body data =>
      match data with
      | Object true (ArrayOf items) =>
          let upcoming := List.filter (λ apt, str_ge (date apt) today) items in
          Returns (setAppointments upcoming w)
      | _ => Returns w
      end
  end.

(** [loadAppointments]: the [catch] clause logs to the console and falls
    through.  [today] is [new Date().toISOString().split('T')[0]] when the
    response is handled. *)
Definition loadAppointments (r : FetchOutcome) (today : string) (w : World)
    : Completion World :=
  match loadAppointments_try r today w with
  | Returns w' => Returns w'
  | Throws _ => Returns w
  end.

(** ** The page as a transition system *)

Inductive Event :=
  | ClickDigit (d : Digit)
  | ClickClear
  | Elapse (dt : nat)
  | ClickTab (t : Tab)
  | ClickToggle (id : string)
  | FetchSettled (r : FetchOutcome) (today : string)
  | StoreChanged (items : list UrgentTodo).

Section Page.
(** The store's [toggleUrgentDone] lives in [@/lib/store]; the page only
    calls it, so it is a parameter here. *)
Variable toggleUrgentDone : string → list UrgentTodo → list UrgentTodo.

Definition settle (r : FetchOutcome) (today : string) (w : World) : World :=
  match fetches w with
  | 0 => w
  | S n =>
      let w1 :=
        {| unlocked := unlocked w; code := code w; error := error w;
           tab := tab w; appointments := appointments w;
           urgentTodos := urgentTodos w;
           sessionStorage := sessionStorage w; now := now w;
           timers := timers w; fetches := n; storeLoads := storeLoads w |} in
      match loadAppointments r today w1 with
      | Returns w' => w'
      | Throws _ => w1
      end
  end.

(** The tab bar and the toggle buttons are rendered only once the gate
    is unlocked. *)
Definition step (e : Event) (w : World) : World :=
  match e with
  | ClickDigit d => clickDigit d w
  | ClickClear => clickClear w
  | Elapse dt => elapse dt w
  | ClickTab t => if unlocked w then setTab t w else w
  | ClickToggle id =>
      if unlocked w then setUrgentTodos (toggleUrgentDone id (urgentTodos w)) w
      else w
  | FetchSettled r today => settle r today w
  | StoreChanged items => setUrgentTodos items w
  end.

Definition run (es : list Event) (w : World) : World :=
  foldl (λ acc e, step e acc) w es.

(** The states the page can be in. *)
Inductive reachable : World → Prop :=
  | reachable_mount storage store : reachable (mount storage store)
  | reachable_step e w : reachable w → reachable (step e w).
End Page.

(** Modelled from the spec: [toggleUrgentDone(id)] of the store
    ([@/lib/store], not part of the page) "flips completion state" of the
    item with that id.  Used only to run the page on concrete inputs. *)
Definition storeToggle (id : string) (l : list UrgentTodo) : list UrgentTodo :=
  map (λ t, if decide (todo_id t = id)
            then {| todo_id := todo_id t; todo_title := todo_title t;
                    done := negb (done t); priority := priority t;
                    dueAt := dueAt t |}
            else t) l.


(** ** Observations and orders used to state the properties *)

(** Events by kind. *)
Definition isElapse (e : Event) : bool :=
  match e with Elapse _ => true | _ => false end.

Definition isFetchSettled (e : Event) : bool :=
  match e with FetchSettled _ _ => true | _ => false end.

(** The appointments listed on the "upcoming" tab, top to bottom. *)
Definition displayed (w : World) (renderDay : string) : list Appointment :=
  (UpcomingAppointmentsView (appointments w) renderDay).*1.

(** The responses that carry no usable list. *)
Definition failed (r : FetchOutcome) : bool :=
  match r with
  | TransportFailure => true
  | BodyNotJson => true
  | Body Nullish => true
  | Body (Object ok items) =>
      negb ok || match items with NotArray => true | ArrayOf _ => false end
  end.

(** [a] is not after [b]: earlier date, or same date and not a later start
    (code-unit order on both strings). *)
Definition apt_le (a b : Appointment) : Prop :=
  str_lt (date a) (date b) = true ∨
  (date a = date b ∧ str_lt (start b) (start a) = false).

(** Due times, with "no due time" after every due time. *)
Definition due_le (x y : option Z) : Prop :=
  match x, y with
  | Some a, Some b => (a ≤ b)%Z
  | _, None => True
  | None, Some _ => False
  end.

(** [a] is not after [b]: smaller rank, or same priority and not a later
    due time. *)
Definition urgent_le (a b : UrgentTodo) : Prop :=
  (priorityRank (priority a) < priorityRank (priority b))%Z ∨
  (priority a = priority b ∧ due_le (dueAt a) (dueAt b)).

(** A calendar date, and the text [toISOString().split('T')[0]] gives
    for it (years 0 to 9999): four digits, two digits, two digits. *)
Record CalDate := { year : nat; month : nat; day : nat }.

Definition digitChar (n : nat) : ascii := ascii_of_nat (48 + n).

Definition pad2 (n : nat) : string :=
  String (digitChar (n / 10)) (String (digitChar (n mod 10)) "").

Definition pad4 (n : nat) : string :=
  String (digitChar (n / 1000))
    (String (digitChar (n / 100 mod 10)) (pad2 (n mod 100))).

Definition isoDate (c : CalDate) : string :=
  pad4 (year c) +:+ "-" +:+ pad2 (month c) +:+ "-" +:+ pad2 (day c).

(** Calendar order: by year, then month, then day. *)
Definition cal_compare (a b : CalDate) : comparison :=
  match year a ?= year b with
  | Eq => match month a ?= month b with
          | Eq => day a ?= day b
          | c => c
          end
  | c => c
  end.

Definition wfCal (c : CalDate) : Prop :=
  year c < 10 * 1000 ∧ 1 ≤ month c ≤ 12 ∧ 1 ≤ day c ≤ 31.

(** Priorities can be compared for equality. *)
#[global] Instance Priority_eq_dec : EqDecision Priority.
Proof. solve_decision. Defined.

(** ** What the lock screen and the tab bar show *)

(** The colour of a dot of the code display. *)
Inductive DotColor := DotRed | DotBlue | DotGrey.

(** The code display: [[0, 1, 2].map((i) => ...)], red when [error],
    else blue when [code.length > i], else grey. *)
Definition codeDisplay (w : World) : list DotColor :=
  map (λ i, if error w then DotRed
            else if decide (i < String.length (code w)) then DotBlue
            else DotGrey)
      [0; 1; 2].

(** The numbers in the tab labels: [appointments.length] and
    [upcomingUrgent.length]. *)
Definition tabCounts (w : World) : nat * nat :=
  (length (appointments w), length (upcomingUrgent w)).

(** What holds of the gate in every state the page can be in (proved
    below): the error flag is up only on a locked gate with a full, wrong
    entry and a callback pending; a locked gate with a full entry shows
    the error; every pending deadline is at most 1000ms ahead; an
    unlocked gate has its marker stored; a locked gate has fetched
    nothing and is on the first tab. *)
Definition gateInv (w : World) : Prop :=
  (error w = true →
   unlocked w = false ∧ String.length (code w) = 3 ∧
   code w ≠ CODE_LOCK ∧ timers w ≠ []) ∧
  (unlocked w = false → String.length (code w) = 3 → error w = true) ∧
  Forall (λ t, now w < t ∧ t ≤ now w + 1000) (timers w) ∧
  (unlocked w = true → getItem STORAGE_KEY w = Some "true") ∧
  (unlocked w = false →
   appointments w = [] ∧ fetches w = 0 ∧ storeLoads w = 0 ∧
   tab w = upcoming).

(** ** Well-formed dates and times, and the passing of time *)

(** A time of day, and its zero-padded text HH:MM. *)
Record TimeOfDay := { hour : nat; minute : nat }.

Definition isoTime (t : TimeOfDay) : string :=
  pad2 (hour t) +:+ ":" +:+ pad2 (minute t).

Definition wfTime (t : TimeOfDay) : Prop := hour t ≤ 23 ∧ minute t ≤ 59.

(** Order of the clock: by hour, then minute. *)
Definition time_compare (a b : TimeOfDay) : comparison :=
  match hour a ?= hour b with
  | Eq => minute a ?= minute b
  | c => c
  end.

(** The [date] of the appointment is an ISO calendar date. *)
Definition isoDated (a : Appointment) : Prop :=
  ∃ c, wfCal c ∧ date a = isoDate c.

(** The [date] is an ISO calendar date and the [start] a zero-padded
    time. *)
Definition wellFormed (a : Appointment) : Prop :=
  isoDated a ∧ ∃ t, wfTime t ∧ start a = isoTime t.

(** [a] is not after [b] in time: an earlier day, or the same day and not
    a later time of day. *)
Definition chronological (a b : Appointment) : Prop :=
  ∃ ca ta cb tb,
    (wfCal ca ∧ date a = isoDate ca) ∧ (wfTime ta ∧ start a = isoTime ta) ∧
    (wfCal cb ∧ date b = isoDate cb) ∧ (wfTime tb ∧ start b = isoTime tb) ∧
    (cal_compare ca cb = Lt ∨
     (cal_compare ca cb = Eq ∧ time_compare ta tb ≠ Gt)).

(** The time that passes during a sequence of events. *)
Definition elapsed (es : list Event) : nat :=
  foldr (λ e n, match e with Elapse dt => dt + n | _ => n end) 0 es.

(** * Properties of the access gate *)

Lemma length_app (a b : string) :
  String.length (a +:+ b) = String.length a + String.length b.
Proof. induction a as [|c a IH]; simpl; [done | by rewrite IH]. Qed.

Lemma digitLabel_length (d : Digit) : String.length (digitLabel d) = 1.
Proof. by destruct d. Qed.

(** Running the callback once or several times is the same. *)
Lemma timerCallback_fold (due : list nat) (w : World) :
  foldr (λ _ acc, timerCallback acc) w due =
  match due with [] => w | _ => timerCallback w end.
Proof.
  induction due as [|t due IH]; simpl; [done|].
  rewrite IH. by destruct due.
Qed.

Section Elapse.
Variables (dt : nat) (w : World).

Lemma elapse_unlocked : unlocked (elapse dt w) = unlocked w.
Proof. unfold elapse. rewrite timerCallback_fold. by destruct (filter _ _). Qed.

Lemma elapse_sessionStorage : sessionStorage (elapse dt w) = sessionStorage w.
Proof. unfold elapse. rewrite timerCallback_fold. by destruct (filter _ _). Qed.

Lemma elapse_appointments : appointments (elapse dt w) = appointments w.
Proof. unfold elapse. rewrite timerCallback_fold. by destruct (filter _ _). Qed.

Lemma elapse_now : now (elapse dt w) = now w + dt.
Proof. done. Qed.

Lemma elapse_timers :
  timers (elapse dt w) = filter (λ d, now w + dt < d) (timers w).
Proof. unfold elapse. rewrite timerCallback_fold. by destruct (filter _ _). Qed.

(** A deadline reached: entry and error flag are reset in one step. *)
Lemma elapse_due (t : nat) :
  t ∈ timers w → t ≤ now w + dt →
  code (elapse dt w) = "" ∧ error (elapse dt w) = false.
Proof.
  intros Hin Hle. unfold elapse. rewrite timerCallback_fold.
  destruct (filter _ _) as [|t' due] eqn:Hdue; [|done].
  exfalso. eapply (filter_nil_not_elem_of _ _ t); eauto.
Qed.

(** No deadline reached: nothing but the clock moves. *)
Lemma elapse_idle :
  Forall (λ t, now w + dt < t) (timers w) →
  code (elapse dt w) = code w ∧ error (elapse dt w) = error w.
Proof.
  intros Hall. unfold elapse. rewrite timerCallback_fold.
  destruct (filter _ _) as [|t' due] eqn:Hdue; [done|].
  assert (t' ∈ filter (λ d, d ≤ now w + dt) (timers w)) as Hin
    by (rewrite Hdue; left).
  apply list_elem_of_filter in Hin as [Hle Hin].
  rewrite Forall_forall in Hall. apply Hall in Hin. lia.
Qed.

(** Entry and error flag are never cleared separately. *)
Lemma elapse_together :
  (code (elapse dt w) = "" ∧ error (elapse dt w) = false) ∨
  (code (elapse dt w) = code w ∧ error (elapse dt w) = error w).
Proof.
  unfold elapse. rewrite timerCallback_fold.
  destruct (filter _ _); [by right | by left].
Qed.
End Elapse.

(** The three outcomes of the handler, by the length of the new entry. *)
Lemma handleButtonPress_short (digit : string) (w : World) :
  String.length (code w +:+ digit) ≠ 3 →
  handleButtonPress digit w = setCode (code w +:+ digit) w.
Proof. intros H. unfold handleButtonPress. simpl. by rewrite decide_False. Qed.

Lemma handleButtonPress_match (digit : string) (w : World) :
  code w +:+ digit = CODE_LOCK →
  handleButtonPress digit w =
  setError false (setItem STORAGE_KEY "true"
    (setUnlocked_true (setCode CODE_LOCK w))).
Proof.
  intros H. unfold handleButtonPress. simpl. rewrite H.
  rewrite decide_True by done. by rewrite decide_True.
Qed.

Lemma handleButtonPress_mismatch (digit : string) (w : World) :
  String.length (code w +:+ digit) = 3 →
  code w +:+ digit ≠ CODE_LOCK →
  handleButtonPress digit w =
  setTimeout 1000 (setError true (setCode (code w +:+ digit) w)).
Proof.
  intros H3 Hne. unfold handleButtonPress. simpl.
  rewrite decide_True by done. by rewrite decide_False.
Qed.

Lemma clickDigit_enabled (d : Digit) (w : World) :
  unlocked w = false → String.length (code w) < 3 →
  clickDigit d w = handleButtonPress (digitLabel d) w.
Proof.
  intros Hl Hc. unfold clickDigit. rewrite Hl. by rewrite decide_False by lia.
Qed.

Lemma setUnlocked_true_unlocked (w : World) :
  unlocked (setUnlocked_true w) = true.
Proof. unfold setUnlocked_true. by destruct (unlocked w) eqn:E. Qed.

(** A third digit pressed on the locked gate, whatever the first two
    were and whatever else the state holds. *)
Lemma third_digit_pressed (w : World) (d : Digit) :
  unlocked w = false →
  String.length (code w) = 2 →
  let w' := clickDigit d w in
  if decide (code w +:+ digitLabel d = CODE_LOCK) then
    unlocked w' = true ∧
    getItem STORAGE_KEY w' = Some "true" ∧
    error w' = false
  else
    unlocked w' = false ∧
    error w' = true ∧
    code w' = code w +:+ digitLabel d ∧
    (∀ dt,
       unlocked (elapse dt w') = false ∧
       ((code (elapse dt w') = "" ∧ error (elapse dt w') = false) ∨
        (code (elapse dt w') = code w' ∧ error (elapse dt w') = true))) ∧
    (∀ dt, 1000 ≤ dt →
       code (elapse dt w') = "" ∧ error (elapse dt w') = false).
Proof.
  intros Hl H2 w'.
  assert (String.length (code w +:+ digitLabel d) = 3) as H3
    by (rewrite length_app, digitLabel_length; lia).
  subst w'. rewrite clickDigit_enabled by (done || lia).
  destruct (decide (code w +:+ digitLabel d = CODE_LOCK)) as [Heq|Hne].
  - rewrite handleButtonPress_match by done.
    split_and!; [|unfold getItem; simpl; apply lookup_insert_eq|done].
    simpl. apply setUnlocked_true_unlocked.
  - rewrite handleButtonPress_mismatch by done.
    set (w' := setTimeout _ _).
    assert (now w + 1000 ∈ timers w') as Hin
      by (simpl; apply elem_of_app; right; left).
    split_and!; [done..| |].
    + intros dt. rewrite elapse_unlocked. split; [done|].
      destruct (elapse_together dt w') as [?|[? ?]]; [by left | by right].
    + intros dt Hdt. apply (elapse_due dt w' (now w + 1000)); [done|].
      simpl. lia.
Qed.

(** Two digits typed on an empty, locked gate are simply collected. *)
Lemma two_digits_entered (w : World) (d1 d2 : Digit) :
  unlocked w = false → code w = "" →
  let w2 := clickDigit d2 (clickDigit d1 w) in
  unlocked w2 = false ∧ code w2 = digitLabel d1 +:+ digitLabel d2 ∧
  String.length (code w2) = 2.
Proof.
  intros Hl Hc. simpl.
  rewrite (clickDigit_enabled d1 w) by (done || rewrite Hc; simpl; lia).
  rewrite (handleButtonPress_short _ w)
    by (rewrite Hc; by destruct d1).
  rewrite clickDigit_enabled; simpl; rewrite ?Hc; try done;
    [|destruct d1; simpl; lia].
  rewrite handleButtonPress_short; simpl; [|by destruct d1, d2].
  split_and!; [done..|]. by destruct d1, d2.
Qed.

(** C1.  Three digits typed on the empty, locked gate: if they spell the
    passcode the gate is unlocked, the session marker is written and the
    error flag is false; otherwise the gate stays locked with the error
    flag set and the three digits kept, and as time passes the entry and
    the flag are either both still there or both cleared, and both are
    cleared once 1000ms have elapsed. *)
Theorem three_digits_outcome (w : World) (d1 d2 d3 : Digit) :
  unlocked w = false →
  code w = "" →
  let entry := digitLabel d1 +:+ digitLabel d2 +:+ digitLabel d3 in
  let w' := clickDigit d3 (clickDigit d2 (clickDigit d1 w)) in
  if decide (entry = CODE_LOCK) then
    unlocked w' = true ∧
    getItem STORAGE_KEY w' = Some "true" ∧
    error w' = false
  else
    unlocked w' = false ∧
    error w' = true ∧
    code w' = entry ∧
    (∀ dt,
       unlocked (elapse dt w') = false ∧
       ((code (elapse dt w') = "" ∧ error (elapse dt w') = false) ∨
        (code (elapse dt w') = entry ∧ error (elapse dt w') = true))) ∧
    (∀ dt, 1000 ≤ dt →
       code (elapse dt w') = "" ∧ error (elapse dt w') = false).
Proof.
  intros Hl Hc entry w'.
  destruct (two_digits_entered w d1 d2 Hl Hc) as (Hl2 & Hc2 & Hlen2).
  pose proof (third_digit_pressed (clickDigit d2 (clickDigit d1 w)) d3
                Hl2 Hlen2) as H.
  cbv zeta in H. rewrite Hc2 in H.
  assert ((digitLabel d1 +:+ digitLabel d2) +:+ digitLabel d3 = entry) as E
    by (by destruct d1, d2).
  rewrite E in H. fold w' in H.
  destruct (decide (entry = CODE_LOCK)); [done|].
  destruct H as (? & ? & Hw' & ? & ?). by rewrite Hw' in *.
Qed.

Lemma three_digits_outcome_witness :
  let w' := clickDigit D4 (clickDigit D3 (clickDigit D1 (mount ∅ []))) in
  unlocked w' = false ∧ error w' = true ∧ code w' = "134" ∧
  code (elapse 1000 w') = "" ∧ error (elapse 1000 w') = false.
Proof.
  intros w'.
  pose proof (three_digits_outcome (mount ∅ []) D1 D3 D4 eq_refl eq_refl)
    as H.
  cbv zeta in H.
  destruct (decide (digitLabel D1 +:+ digitLabel D3 +:+ digitLabel D4
                    = CODE_LOCK)) as [Heq|_]; [discriminate Heq|].
  destruct H as (Hu & He & Hc & _ & Hclr).
  destruct (Hclr 1000 (le_n 1000)) as [Hc' He'].
  repeat split; assumption.
Defined.

Lemma handleButtonPress_code (digit : string) (w : World) :
  code (handleButtonPress digit w) = code w +:+ digit.
Proof.
  unfold handleButtonPress, setUnlocked_true. simpl.
  repeat case_decide; simpl; try done. by destruct (unlocked w).
Qed.

Lemma handleButtonPress_unlocked (digit : string) (w : World) :
  unlocked w = true → unlocked (handleButtonPress digit w) = true.
Proof.
  intros H. unfold handleButtonPress, setUnlocked_true. simpl.
  repeat case_decide; simpl; try done. by rewrite H.
Qed.

(** The stripped handler has no length check of its own: the bound on the
    entry comes from the disabled buttons. *)
Lemma handleButtonPress_unguarded (digit : string) (w : World) :
  String.length (code (handleButtonPress digit w)) =
  String.length (code w) + String.length digit.
Proof. by rewrite handleButtonPress_code, length_app. Qed.

Section PageProperties.
Variable toggleUrgentDone : string → list UrgentTodo → list UrgentTodo.

(** A settled fetch touches the appointment list and the count of
    requests in flight, nothing else. *)
Lemma settle_gate (r : FetchOutcome) (today : string) (w : World) :
  unlocked (settle r today w) = unlocked w ∧
  code (settle r today w) = code w ∧
  error (settle r today w) = error w ∧
  timers (settle r today w) = timers w ∧
  now (settle r today w) = now w ∧
  sessionStorage (settle r today w) = sessionStorage w.
Proof.
  unfold settle. destruct (fetches w); [done|].
  destruct r as [| |[|[] []]]; done.
Qed.

Lemma run_cons (e : Event) (es : list Event) (w : World) :
  run toggleUrgentDone (e :: es) w
  = run toggleUrgentDone es (step toggleUrgentDone e w).
Proof. done. Qed.

Lemma step_code_bounded (e : Event) (w : World) :
  String.length (code w) ≤ 3 →
  String.length (code (step toggleUrgentDone e w)) ≤ 3.
Proof.
  intros Hb. destruct e as [d| |dt|t|id|r today|items]; simpl.
  - unfold clickDigit. destruct (unlocked w); [done|].
    case_decide; [done|].
    rewrite handleButtonPress_unguarded, digitLabel_length. lia.
  - unfold clickClear. destruct (unlocked w); [done|]. simpl. lia.
  - change (String.length (code (elapse dt w)) ≤ 3).
    destruct (elapse_together dt w) as [[-> _]|[-> _]]; simpl; lia.
  - by destruct (unlocked w).
  - by destruct (unlocked w).
  - by destruct (settle_gate r today w) as (_ & -> & _).
  - done.
Qed.

Lemma reachable_code_bounded (w : World) :
  reachable toggleUrgentDone w → String.length (code w) ≤ 3.
Proof.
  induction 1 as [storage store|e w _ IH].
  - unfold mount, mountEffect, setUnlocked_true. simpl.
    case_decide; simpl; lia.
  - by apply step_code_bounded.
Qed.

(** C2.  In every reachable state the entry has at most 3 characters,
    and a digit submitted on a full entry changes nothing at all. *)
Theorem entry_length_bounded (w : World) :
  reachable toggleUrgentDone w →
  String.length (code w) ≤ 3 ∧
  (String.length (code w) = 3 →
   ∀ d, step toggleUrgentDone (ClickDigit d) w = w).
Proof.
  intros Hr. split; [by apply reachable_code_bounded|].
  intros H3 d. simpl. unfold clickDigit.
  destruct (unlocked w); [done|]. by rewrite decide_True by lia.
Qed.

Lemma step_unlocked (e : Event) (w : World) :
  unlocked w = true → unlocked (step toggleUrgentDone e w) = true.
Proof.
  intros Hu. destruct e as [d| |dt|t|id|r today|items]; simpl.
  - unfold clickDigit. by rewrite Hu.
  - unfold clickClear. by rewrite Hu.
  - change (unlocked (elapse dt w) = true). by rewrite elapse_unlocked.
  - by rewrite Hu.
  - by rewrite Hu.
  - by destruct (settle_gate r today w) as (-> & _).
  - done.
Qed.

(** C9.  Once unlocked, no sequence of digit presses, clears, timer
    firings, tab switches, toggles, store updates or settled fetches
    locks the gate again. *)
Theorem unlocked_monotonic (es : list Event) (w : World) :
  unlocked w = true → unlocked (run toggleUrgentDone es w) = true.
Proof.
  revert w. induction es as [|e es IH]; intros w Hu; [done|].
  rewrite run_cons. apply IH. by apply step_unlocked.
Qed.

(** Only the passing of time takes a callback out of the queue, and
    only the passing of time moves the clock. *)
Lemma step_keeps_timer (e : Event) (w : World) (t : nat) :
  isElapse e = false → t ∈ timers w →
  t ∈ timers (step toggleUrgentDone e w) ∧
  now (step toggleUrgentDone e w) = now w.
Proof.
  intros He Hin. destruct e as [d| |dt|tb|id|r today|items]; simpl;
    try done.
  - unfold clickDigit. destruct (unlocked w) eqn:Hu; [done|].
    case_decide; [done|].
    unfold handleButtonPress, setUnlocked_true. simpl.
    repeat case_decide; rewrite ?Hu; simpl; try done.
    split; [|done]. apply elem_of_app. by left.
  - unfold clickClear. by destruct (unlocked w).
  - by destruct (unlocked w).
  - by destruct (unlocked w).
  - by destruct (settle_gate r today w) as (_ & _ & _ & -> & -> & _).
Qed.

Lemma run_keeps_timer (es : list Event) (w : World) (t : nat) :
  Forall (λ e, isElapse e = false) es → t ∈ timers w →
  t ∈ timers (run toggleUrgentDone es w) ∧
  now (run toggleUrgentDone es w) = now w.
Proof.
  revert w. induction es as [|e es IH]; intros w Hes Hin; [done|].
  apply Forall_cons in Hes as [He Hes]. rewrite run_cons.
  destruct (step_keeps_timer e w t He Hin) as [Hin' Hnow].
  destruct (IH _ Hes Hin') as [? ?]. split; [done | congruence].
Qed.
End PageProperties.

Lemma entry_length_bounded_witness :
  let w := run storeToggle
             [ClickDigit D1; ClickDigit D2; ClickDigit D4] (mount ∅ []) in
  String.length (code w) ≤ 3 ∧ step storeToggle (ClickDigit D7) w = w.
Proof.
  assert (reachable storeToggle
            (run storeToggle [ClickDigit D1; ClickDigit D2; ClickDigit D4]
               (mount ∅ []))) as Hr
    by (repeat apply reachable_step; apply reachable_mount).
  destruct (entry_length_bounded storeToggle _ Hr) as [Hb Hfull].
  split; [exact Hb | exact (Hfull eq_refl D7)].
Defined.

Lemma unlocked_monotonic_witness :
  let w := run storeToggle
             [ClickDigit D3; ClickDigit D3; ClickDigit D3] (mount ∅ []) in
  unlocked w = true ∧
  unlocked (run storeToggle
              [ClickDigit D1; ClickClear; Elapse 5000; ClickTab urgent;
               ClickToggle "t1"; FetchSettled TransportFailure "2024-06-10";
               StoreChanged []] w) = true.
Proof.
  split; [reflexivity|].
  apply (unlocked_monotonic storeToggle). reflexivity.
Defined.

(** ** The error timer and [clear()] *)

(** C6 (as stated, refuted).  A failed entry at time 0 arms the callback
    for time 1000; [clear()] at time 200 leaves it queued; the newer entry
    "33", typed after the clear, is wiped when the old callback runs. *)
Lemma stale_timer_clears_newer_entry :
  let w1 := run storeToggle
              [ClickDigit D1; ClickDigit D2; ClickDigit D4] (mount ∅ []) in
  let w2 := run storeToggle
              [Elapse 200; ClickClear; ClickDigit D3; ClickDigit D3] w1 in
  let w3 := run storeToggle [Elapse 800] w2 in
  (error w1 = true ∧ timers w1 = [1000]) ∧
  (code w2 = "33" ∧ error w2 = false ∧
   timers w2 = [1000] ∧ now w2 = 200) ∧
  (code w3 = "" ∧ code w3 ≠ code w2 ∧ timers w3 = []).
Proof. vm_compute. repeat split; discriminate. Qed.

(** ** The entry after a successful match *)

(** C7 (as stated, refuted).  Typing 3, 3, 3 on a fresh locked gate
    unlocks it, and the entry is then "333", not the empty string; it is
    still "333" however much time passes. *)
Lemma successful_match_keeps_entry :
  let w := clickDigit D3 (clickDigit D3 (mount ∅ [])) in
  let w' := clickDigit D3 w in
  code w +:+ digitLabel D3 = CODE_LOCK ∧
  unlocked w' = true ∧
  code w' = "333" ∧ code w' ≠ "" ∧
  code (elapse 5000 w') = "333".
Proof. vm_compute. repeat split; discriminate. Qed.

(** ** Restoring the unlock state at mount *)

(** C8 (as stated, refuted).  The key can be present without the gate
    being restored: with the value "false" under the key, the marker is
    there and the mounted page is locked. *)
Lemma marker_present_but_locked :
  let storage : gmap string string := {[ STORAGE_KEY := "false" ]} in
  is_Some (storage !! STORAGE_KEY) ∧
  unlocked (mount storage []) = false.
Proof.
  split.
  - exists "false". apply lookup_singleton_eq.
  - unfold mount, mountEffect, getItem. simpl.
    rewrite lookup_singleton_eq. by rewrite decide_False.
Qed.

(** C8 (amended).  The mounted page is unlocked exactly when the value
    stored under the key is the string "true"; it is locked when the key
    is absent and when it holds any other value.  Mounting reads the
    storage and does not write it. *)
Theorem restore_unlocked_iff_true
    (storage : gmap string string) (store : list UrgentTodo) :
  unlocked (mount storage store)
    = bool_decide (storage !! STORAGE_KEY = Some "true") ∧
  sessionStorage (mount storage store) = storage.
Proof.
  unfold mount, mountEffect, getItem, setUnlocked_true. simpl.
  case_decide.
  - by rewrite bool_decide_eq_true_2.
  - by rewrite bool_decide_eq_false_2.
Qed.

(** * Properties of [Array.prototype.sort] as modelled *)

Section ArraySortProperties.
Context {A : Type} (comparefn : A → A → Number).

Lemma insert_Permutation (x : A) (l : list A) :
  insert comparefn x l ≡ₚ x :: l.
Proof.
  induction l as [|y l IH]; simpl; [done|].
  case_decide; [done|]. rewrite IH. apply Permutation_swap.
Qed.

(** Sorting neither adds nor drops nor changes an element. *)
Lemma sort_Permutation (l : list A) : sort comparefn l ≡ₚ l.
Proof.
  induction l as [|x l IH]; simpl; [done|].
  unfold sort in IH. by rewrite insert_Permutation, IH.
Qed.

Lemma sort_length (l : list A) : length (sort comparefn l) = length l.
Proof. by rewrite sort_Permutation. Qed.

(** A consistent comparator: a total preorder. *)
Hypothesis precedes_total :
  ∀ x y, precedes comparefn x y ∨ precedes comparefn y x.
Hypothesis precedes_trans :
  ∀ x y z, precedes comparefn x y → precedes comparefn y z →
           precedes comparefn x z.

Lemma insert_StronglySorted (x : A) (l : list A) :
  StronglySorted (precedes comparefn) l →
  StronglySorted (precedes comparefn) (insert comparefn x l).
Proof.
  induction 1 as [|y l Hs IH Hy]; simpl.
  - repeat constructor.
  - case_decide as Hxy.
    + constructor; [by constructor|].
      constructor; [done|].
      eapply Forall_impl; [exact Hy|]. intros z Hyz. by eapply precedes_trans.
    + constructor; [done|].
      rewrite insert_Permutation. constructor; [|done].
      destruct (precedes_total x y); [|done]. by contradict Hxy.
Qed.

Lemma sort_StronglySorted (l : list A) :
  StronglySorted (precedes comparefn) (sort comparefn l).
Proof.
  induction l as [|x l IH]; simpl; [constructor|].
  by apply insert_StronglySorted.
Qed.

(** Stability: the elements that compare equal to [k] keep the order they
    had in the input. *)
Lemma insert_stable (k x : A) (l : list A) :
  filter (tied comparefn k) (insert comparefn x l)
  = filter (tied comparefn k) (x :: l).
Proof.
  induction l as [|y l IH]; simpl; [done|].
  case_decide as Hxy; [done|].
  rewrite (filter_cons _ y), IH, !(filter_cons _ x), !(filter_cons _ y).
  destruct (decide (tied comparefn k y)) as [[Hky Hyk]|Hy]; [|done].
  destruct (decide (tied comparefn k x)) as [[Hkx Hxk]|Hx]; [|done].
  contradict Hxy. by apply (precedes_trans x k y).
Qed.

Lemma sort_stable (k : A) (l : list A) :
  filter (tied comparefn k) (sort comparefn l) = filter (tied comparefn k) l.
Proof.
  induction l as [|x l IH]; simpl; [done|].
  rewrite insert_stable, !(filter_cons _ x).
  fold (sort comparefn l). by rewrite IH.
Qed.
End ArraySortProperties.

(** In a strongly sorted list, an earlier row is related to every later
    one. *)
Lemma StronglySorted_lookup {A} (R : A → A → Prop) (l : list A)
    (i j : nat) (a b : A) :
  StronglySorted R l → i < j →
  l !! i = Some a → l !! j = Some b → R a b.
Proof.
  intros Hs. revert i j. induction Hs as [|x l Hs IH Hx]; intros i j Hij Hi Hj.
  - by rewrite lookup_nil in Hi.
  - destruct j as [|j]; [lia|]. destruct i as [|i]; simpl in *.
    + simplify_eq. rewrite Forall_forall in Hx. apply Hx.
      by eapply list_elem_of_lookup_2.
    + eapply IH; [|done..]. lia.
Qed.

Lemma StronglySorted_weaken {A} (R R' : A → A → Prop) (l : list A) :
  (∀ a b, R a b → R' a b) → StronglySorted R l → StronglySorted R' l.
Proof.
  intros HR. induction 1 as [|x l Hs IH Hx]; constructor; [done|].
  eapply Forall_impl; [exact Hx|]. intros b. apply HR.
Qed.

(** * String order *)

Lemma str_lt_compare (a b : string) :
  str_lt a b = true ↔ String.compare a b = Lt.
Proof. unfold str_lt, String.ltb. by destruct (String.compare a b). Qed.

Lemma str_lt_false (a b : string) :
  str_lt a b = false ↔ String.compare a b ≠ Lt.
Proof. unfold str_lt, String.ltb. by destruct (String.compare a b). Qed.

Lemma compare_refl (a : string) : String.compare a a = Eq.
Proof.
  destruct (String.compare a a) eqn:E; [done|..];
    pose proof (String.compare_antisym a a) as H; rewrite E in H; done.
Qed.

Lemma compare_Gt_Lt (a b : string) :
  String.compare a b = Gt ↔ String.compare b a = Lt.
Proof.
  rewrite (String.compare_antisym b a).
  by destruct (String.compare a b).
Qed.

Lemma compare_Lt_trans (a b c : string) :
  String.compare a b = Lt → String.compare b c = Lt →
  String.compare a c = Lt.
Proof.
  intros Hab Hbc.
  assert (String.le a b) as Lab
    by (unfold String.le, String.leb; by rewrite Hab).
  assert (String.le b c) as Lbc
    by (unfold String.le, String.leb; by rewrite Hbc).
  assert (String.le a c) as Lac by (by etrans).
  destruct (String.compare a c) eqn:E; [|done|].
  - apply String.compare_eq_iff in E as ->.
    assert (b = c) as -> by (by apply (anti_symm String.le)).
    by rewrite compare_refl in Hab.
  - unfold String.le, String.leb in Lac. by rewrite E in Lac.
Qed.

(** * The upcoming appointments *)

Lemma localeCompare_sign (a b : string) :
  (localeCompare a b < 0 ↔ String.compare a b = Lt)%Z ∧
  (localeCompare a b = 0 ↔ a = b)%Z ∧
  (0 < localeCompare a b ↔ String.compare a b = Gt)%Z.
Proof.
  unfold localeCompare.
  destruct (String.compare a b) eqn:E; split_and!; split; try (done || lia).
  - intros _. by apply String.compare_eq_iff.
  - intros ->. by rewrite compare_refl in E.
  - intros ->. by rewrite compare_refl in E.
Qed.

(** The comparator orders by date, then by start. *)
Lemma compareAppointments_precedes (a b : Appointment) :
  precedes compareAppointments a b ↔ apt_le a b.
Proof.
  unfold precedes, SortCompare, compareAppointments, apt_le.
  destruct (localeCompare_sign (date a) (date b)) as (Hlt & Heq & Hgt).
  destruct (localeCompare_sign (start a) (start b)) as (Hlt' & Heq' & Hgt').
  rewrite str_lt_compare, str_lt_false.
  case_decide as Hd.
  - split.
    + intros Hle. left. apply Hlt. lia.
    + intros [Hl | [He _]]; [apply Hlt in Hl; lia|]. apply Heq in He. lia.
  - assert (localeCompare (date a) (date b) = 0%Z) as Hz
      by (destruct (decide (localeCompare (date a) (date b) = 0%Z)); tauto).
    apply Heq in Hz. split.
    + intros Hle. right. split; [done|].
      intros E. apply compare_Gt_Lt, Hgt' in E. lia.
    + intros [Hl | [_ Hs]].
      * rewrite Hz, compare_refl in Hl. done.
      * destruct (Z_lt_le_dec 0 (localeCompare (start a) (start b)))
          as [Hpos|]; [|done].
        apply Hgt', compare_Gt_Lt in Hpos. done.
Qed.

Lemma apt_le_total (a b : Appointment) : apt_le a b ∨ apt_le b a.
Proof.
  unfold apt_le. rewrite !str_lt_compare, !str_lt_false.
  destruct (String.compare (date a) (date b)) eqn:Ed.
  - apply String.compare_eq_iff in Ed.
    destruct (String.compare (start b) (start a)) eqn:Es.
    + left. by right.
    + right. right. split; [done|].
      intros Es'. apply (compare_Lt_trans _ _ (start b)) in Es; [|done].
      by rewrite compare_refl in Es.
    + left. by right.
  - left. by left.
  - right. left. by apply compare_Gt_Lt.
Qed.

Lemma apt_le_trans (a b c : Appointment) :
  apt_le a b → apt_le b c → apt_le a c.
Proof.
  unfold apt_le. rewrite !str_lt_compare, !str_lt_false.
  intros [Hab | [Eab Sab]] [Hbc | [Ebc Sbc]].
  - left. by eapply compare_Lt_trans.
  - left. by rewrite <- Ebc.
  - left. by rewrite Eab.
  - right. split; [congruence|].
    intros Eca.
    destruct (String.compare (start b) (start a)) eqn:Eba; try done.
    + apply String.compare_eq_iff in Eba. by rewrite Eba in Sbc.
    + apply compare_Gt_Lt in Eba.
      by pose proof (compare_Lt_trans _ _ _ Eca Eba).
Qed.

Lemma sort_appointments_sorted (l : list Appointment) :
  StronglySorted apt_le (sort compareAppointments l).
Proof.
  eapply StronglySorted_weaken;
    [|apply (sort_StronglySorted compareAppointments)].
  - intros a b. apply compareAppointments_precedes.
  - intros a b. rewrite !compareAppointments_precedes. apply apt_le_total.
  - intros a b c. rewrite !compareAppointments_precedes. apply apt_le_trans.
Qed.

(** The appointments a render lists are those it was given. *)
Lemma view_lists_input (l : list Appointment) (today : string) :
  (UpcomingAppointmentsView l today).*1 = sort compareAppointments l.
Proof.
  unfold UpcomingAppointmentsView. rewrite <- list_fmap_compose.
  apply list_fmap_id.
Qed.

(** * ISO calendar dates *)

Example isoDate_example :
  isoDate {| year := 2024; month := 6; day := 9 |} = "2024-06-09".
Proof. reflexivity. Qed.

Lemma digitChar_compare (x y : nat) :
  x < 10 → y < 10 → Ascii.compare (digitChar x) (digitChar y) = (x ?= y).
Proof.
  intros Hx Hy.
  do 10 (destruct x as [|x];
         [do 10 (destruct y as [|y]; [reflexivity|]); lia|]).
  lia.
Qed.

Lemma compare_digit (x y : nat) (s t : string) :
  x < 10 → y < 10 →
  String.compare (String (digitChar x) s) (String (digitChar y) t) =
  match x ?= y with Eq => String.compare s t | c => c end.
Proof. intros Hx Hy. cbn [String.compare]. by rewrite digitChar_compare. Qed.

Lemma app_String (c : ascii) (r s : string) :
  String c r +:+ s = String c (r +:+ s).
Proof. done. Qed.

Lemma compare_pad2 (a b : nat) (s t : string) :
  a < 100 → b < 100 →
  String.compare (pad2 a +:+ s) (pad2 b +:+ t) =
  match a ?= b with Eq => String.compare s t | c => c end.
Proof.
  intros Ha Hb. unfold pad2. cbv [String.append].
  pose proof (Nat.div_mod_eq a 10) as Ea.
  pose proof (Nat.div_mod_eq b 10) as Eb.
  pose proof (Nat.mod_upper_bound a 10 ltac:(lia)) as Ra.
  pose proof (Nat.mod_upper_bound b 10 ltac:(lia)) as Rb.
  rewrite !compare_digit by lia.
  destruct (Nat.compare_spec (a / 10) (b / 10));
  destruct (Nat.compare_spec (a mod 10) (b mod 10));
  destruct (Nat.compare_spec a b); try done; lia.
Qed.

Lemma compare_pad4 (a b : nat) (s t : string) :
  a < 10 * 1000 → b < 10 * 1000 →
  String.compare (pad4 a +:+ s) (pad4 b +:+ t) =
  match a ?= b with Eq => String.compare s t | c => c end.
Proof.
  intros Ha Hb. unfold pad4.
  rewrite !app_String.
  pose proof (Nat.div_mod_eq a 100) as Ea.
  pose proof (Nat.div_mod_eq b 100) as Eb.
  pose proof (Nat.mod_upper_bound a 100 ltac:(lia)) as Ra.
  pose proof (Nat.mod_upper_bound b 100 ltac:(lia)) as Rb.
  assert (a / 1000 = a / 100 / 10) as -> by (by rewrite Nat.Div0.div_div).
  assert (b / 1000 = b / 100 / 10) as -> by (by rewrite Nat.Div0.div_div).
  pose proof (Nat.div_mod_eq (a / 100) 10) as Ea'.
  pose proof (Nat.div_mod_eq (b / 100) 10) as Eb'.
  pose proof (Nat.mod_upper_bound (a / 100) 10 ltac:(lia)) as Ra'.
  pose proof (Nat.mod_upper_bound (b / 100) 10 ltac:(lia)) as Rb'.
  rewrite !compare_digit by lia.
  rewrite compare_pad2 by lia.
  destruct (Nat.compare_spec (a / 100 / 10) (b / 100 / 10));
  destruct (Nat.compare_spec (a / 100 mod 10) (b / 100 mod 10));
  destruct (Nat.compare_spec (a mod 100) (b mod 100));
  destruct (Nat.compare_spec a b); try done; lia.
Qed.

Lemma compare_dash (s t : string) :
  String.compare ("-" +:+ s) ("-" +:+ t) = String.compare s t.
Proof. done. Qed.

(** On ISO dates the code-unit order is the calendar order. *)
Lemma isoDate_compare (a b : CalDate) :
  wfCal a → wfCal b →
  String.compare (isoDate a) (isoDate b) = cal_compare a b.
Proof.
  intros (Hy & Hm & Hd) (Hy' & Hm' & Hd'). unfold isoDate, cal_compare.
  rewrite compare_pad4, compare_dash, compare_pad2, compare_dash by lia.
  replace (pad2 (day a)) with (pad2 (day a) +:+ "") by done.
  replace (pad2 (day b)) with (pad2 (day b) +:+ "") by done.
  rewrite compare_pad2 by lia.
  destruct (year a ?= year b), (month a ?= month b), (day a ?= day b); done.
Qed.

(** * Fetching and listing the appointments *)

Lemma displayed_Permutation (w : World) (renderDay : string) :
  displayed w renderDay ≡ₚ appointments w.
Proof. unfold displayed. rewrite view_lists_input. apply sort_Permutation. Qed.

Lemma displayed_sorted (w : World) (renderDay : string) :
  StronglySorted apt_le (displayed w renderDay).
Proof.
  unfold displayed. rewrite view_lists_input. apply sort_appointments_sorted.
Qed.

Lemma elem_of_filter_upcoming (today : string) (all : list Appointment)
    (a : Appointment) :
  a ∈ List.filter (λ apt, str_ge (date apt) today) all ↔
  a ∈ all ∧ str_lt (date a) today = false.
Proof.
  rewrite !list_elem_of_In, filter_In. unfold str_ge.
  by rewrite negb_true_iff.
Qed.

Lemma compare_colon (s t : string) :
  String.compare (":" +:+ s) (":" +:+ t) = String.compare s t.
Proof. done. Qed.

(** On zero-padded times the code-unit order is the order of the clock. *)
Lemma isoTime_compare (a b : TimeOfDay) :
  wfTime a → wfTime b →
  String.compare (isoTime a) (isoTime b) = time_compare a b.
Proof.
  intros [Hh Hm] [Hh' Hm']. unfold isoTime, time_compare.
  rewrite compare_pad2, compare_colon by lia.
  replace (pad2 (minute a)) with (pad2 (minute a) +:+ "") by done.
  replace (pad2 (minute b)) with (pad2 (minute b) +:+ "") by done.
  rewrite compare_pad2 by lia.
  destruct (hour a ?= hour b), (minute a ?= minute b); done.
Qed.

(** On well-formed appointments the order of the comparator is the order
    in time. *)
Lemma apt_le_chronological (a b : Appointment) :
  wellFormed a → wellFormed b → apt_le a b → chronological a b.
Proof.
  intros [(ca & Hca & Ea) (ta & Hta & Sa)] [(cb & Hcb & Eb) (tb & Htb & Sb)]
    Hle.
  exists ca, ta, cb, tb. split_and!; try done.
  rewrite <- (isoDate_compare ca cb), <- (isoTime_compare ta tb) by done.
  rewrite <- Ea, <- Eb, <- Sa, <- Sb.
  destruct Hle as [Hlt|[Heq Hs]].
  - left. by apply str_lt_compare.
  - right. split; [by rewrite Heq, compare_refl|].
    apply str_lt_false in Hs. intros Hgt. by apply compare_Gt_Lt in Hgt.
Qed.

Lemma StronglySorted_weaken_elem {A} (R R' : A → A → Prop) (l : list A) :
  (∀ a b, a ∈ l → b ∈ l → R a b → R' a b) →
  StronglySorted R l → StronglySorted R' l.
Proof.
  intros HR Hs. induction Hs as [|x l Hs IH Hx]; constructor.
  - apply IH. intros a b Ha Hb. apply HR; by right.
  - apply Forall_forall. intros b Hb. rewrite Forall_forall in Hx.
    apply HR; [left | by right | by apply Hx].
Qed.

(** C3.  A successful fetch of [all] handled on the day [today], followed
    by a render: the rows are exactly the fetched items whose date is not
    before [today], each as often as it was fetched; when the items have
    ISO dates and zero-padded times, the rows are in ascending order of
    date and, within a date, of start time.  For ISO dates "not before"
    and "ascending" are those of the calendar. *)
Theorem upcoming_filtered_sorted
    (all : list Appointment) (today renderDay : string) (w : World) :
  ∃ w',
    loadAppointments (Body (Object true (ArrayOf all))) today w = Returns w' ∧
    displayed w' renderDay
      ≡ₚ List.filter (λ apt, str_ge (date apt) today) all ∧
    (∀ a, a ∈ displayed w' renderDay ↔
          a ∈ all ∧ str_lt (date a) today = false) ∧
    (Forall wellFormed all →
     StronglySorted chronological (displayed w' renderDay)) ∧
    (∀ a c t, a ∈ all → wfCal c → wfCal t →
       date a = isoDate c → today = isoDate t →
       (a ∈ displayed w' renderDay ↔ cal_compare c t ≠ Lt)) ∧
    (∀ i j a b ca cb, i < j →
       displayed w' renderDay !! i = Some a →
       displayed w' renderDay !! j = Some b →
       wfCal ca → wfCal cb → date a = isoDate ca → date b = isoDate cb →
       cal_compare ca cb ≠ Gt).
Proof.
  eexists. split; [reflexivity|].
  set (w' := setAppointments _ w).
  assert (∀ a, a ∈ displayed w' renderDay ↔
               a ∈ all ∧ str_lt (date a) today = false) as Hmem.
  { intros a. rewrite displayed_Permutation. apply elem_of_filter_upcoming. }
  split_and!.
  - apply displayed_Permutation.
  - exact Hmem.
  - intros Hwf. rewrite Forall_forall in Hwf.
    eapply StronglySorted_weaken_elem; [|apply displayed_sorted].
    intros a b Ha Hb. apply Hmem in Ha as [Ha _]. apply Hmem in Hb as [Hb _].
    apply apt_le_chronological; by apply Hwf.
  - intros a c t Hin Hc Ht Hd ->. rewrite Hmem, Hd, str_lt_false.
    rewrite isoDate_compare by done. tauto.
  - intros i j a b ca cb Hij Hi Hj Hca Hcb Ha Hb.
    rewrite <- (isoDate_compare ca cb), <- Ha, <- Hb by done.
    destruct (StronglySorted_lookup _ _ i j a b
                (displayed_sorted w' renderDay) Hij Hi Hj) as [Hlt|[Heq _]].
    + apply str_lt_compare in Hlt. by rewrite Hlt.
    + by rewrite Heq, compare_refl.
Qed.

Lemma upcoming_filtered_sorted_witness :
  let apt y m d hh mm :=
    {| apt_id := "a"; apt_title := "visit";
       date := isoDate {| year := y; month := m; day := d |};
       start := isoTime {| hour := hh; minute := mm |};
       durationMin := 30 |} in
  let all := [apt 2024 6 11 8 0; apt 2024 6 9 10 0;
              apt 2024 6 10 14 0; apt 2024 6 10 9 0] in
  ∃ w',
    loadAppointments (Body (Object true (ArrayOf all))) "2024-06-10"
      (mount ∅ []) = Returns w' ∧
    displayed w' "2024-06-12"
      = [apt 2024 6 10 9 0; apt 2024 6 10 14 0; apt 2024 6 11 8 0] ∧
    StronglySorted chronological (displayed w' "2024-06-12") ∧
    apt 2024 6 9 10 0 ∉ displayed w' "2024-06-12".
Proof.
  intros apt all.
  assert (∀ y m d hh mm,
            y < 10 * 1000 → 1 ≤ m ≤ 12 → 1 ≤ d ≤ 31 → hh ≤ 23 → mm ≤ 59 →
            wellFormed (apt y m d hh mm)) as Hwf.
  { intros y m d hh mm Hy Hm Hd Hh Hmm. split.
    - by exists {| year := y; month := m; day := d |}.
    - by exists {| hour := hh; minute := mm |}. }
  assert (Forall wellFormed all) as Hall
    by (repeat constructor; apply Hwf; lia).
  destruct (upcoming_filtered_sorted all "2024-06-10" "2024-06-12"
              (mount ∅ [])) as (w' & Hload & _ & _ & Hsorted & Hcal & _).
  exists w'. split; [exact Hload|]. split; [|split].
  - injection Hload as <-. reflexivity.
  - exact (Hsorted Hall).
  - intros Hin.
    apply (Hcal (apt 2024 6 9 10 0)
             {| year := 2024; month := 6; day := 9 |}
             {| year := 2024; month := 6; day := 10 |}) in Hin.
    + apply Hin. reflexivity.
    + right. left.
    + unfold wfCal. simpl. lia.
    + unfold wfCal. simpl. lia.
    + reflexivity.
    + reflexivity.
Defined.

(** C5.  A fetch that fails in transport, returns a body that is not
    JSON, or a body with a falsy [ok] or with [items] not an array:
    [loadAppointments] completes normally (nothing is thrown out of it)
    and the state, the appointment list included, is as before. *)
Theorem fetch_failure_keeps_appointments
    (r : FetchOutcome) (today : string) (w : World) :
  failed r = true →
  loadAppointments r today w = Returns w ∧
  ∀ toggle, appointments (settle r today w) = appointments w ∧
            ∀ renderDay, displayed (step toggle (FetchSettled r today) w)
                           renderDay = displayed w renderDay.
Proof.
  intros Hf.
  assert (loadAppointments r today w = Returns w) as Hload
    by (destruct r as [| |[|[] []]]; done).
  assert (appointments (settle r today w) = appointments w) as Happ.
  { unfold settle. destruct (fetches w); [done|].
    destruct r as [| |[|[] []]]; done. }
  split; [done|]. intros toggle. split; [done|].
  intros renderDay. unfold displayed. simpl. by rewrite Happ.
Qed.

Lemma fetch_failure_keeps_appointments_witness :
  let apt := {| apt_id := "a1"; apt_title := "visit"; date := "2024-06-10";
                start := "09:00"; durationMin := 30 |} in
  let w := setAppointments [apt] (mount {[ STORAGE_KEY := "true" ]} []) in
  loadAppointments (Body (Object false (ArrayOf []))) "2024-06-11" w
    = Returns w ∧
  loadAppointments TransportFailure "2024-06-11" w = Returns w.
Proof.
  intros apt w. split.
  - apply (fetch_failure_keeps_appointments
             (Body (Object false (ArrayOf []))) "2024-06-11" w eq_refl).
  - apply (fetch_failure_keeps_appointments
             TransportFailure "2024-06-11" w eq_refl).
Defined.

Lemma step_appointments (toggle : string → list UrgentTodo → list UrgentTodo)
    (e : Event) (w : World) :
  isFetchSettled e = false → appointments (step toggle e w) = appointments w.
Proof.
  intros He. destruct e as [d| |dt|tb|id|r today|items]; simpl; try done.
  - unfold clickDigit. destruct (unlocked w) eqn:Hu; [done|].
    case_decide; [done|].
    unfold handleButtonPress, setUnlocked_true. simpl.
    repeat case_decide; rewrite ?Hu; done.
  - unfold clickClear. by destruct (unlocked w).
  - apply elapse_appointments.
  - by destruct (unlocked w).
  - by destruct (unlocked w).
Qed.

Lemma run_appointments (toggle : string → list UrgentTodo → list UrgentTodo)
    (es : list Event) (w : World) :
  Forall (λ e, isFetchSettled e = false) es →
  appointments (run toggle es w) = appointments w.
Proof.
  revert w. induction es as [|e es IH]; intros w Hes; [done|].
  apply Forall_cons in Hes as [He Hes]. rewrite run_cons, IH by done.
  by apply step_appointments.
Qed.

(** C10.  The rows of a render are a permutation of the list it is given,
    whatever the day of the render: nothing is filtered out then.  So
    until a fetch settles, through any other events, the rows remain a
    permutation of the stored list, past dates included. *)
Theorem view_is_permutation
    (l : list Appointment) (renderDay : string)
    (toggle : string → list UrgentTodo → list UrgentTodo)
    (es : list Event) (w : World) :
  (UpcomingAppointmentsView l renderDay).*1 ≡ₚ l ∧
  length (UpcomingAppointmentsView l renderDay) = length l ∧
  (Forall (λ e, isFetchSettled e = false) es →
   displayed (run toggle es w) renderDay ≡ₚ appointments w).
Proof.
  split_and!.
  - rewrite view_lists_input. apply sort_Permutation.
  - unfold UpcomingAppointmentsView. by rewrite length_map, sort_length.
  - intros Hes. rewrite displayed_Permutation. by rewrite run_appointments.
Qed.

Lemma view_is_permutation_witness :
  let apt := {| apt_id := "a1"; apt_title := "visit"; date := "2024-06-10";
                start := "09:00"; durationMin := 30 |} in
  let w := setAppointments [apt] (mount {[ STORAGE_KEY := "true" ]} []) in
  displayed (run storeToggle [Elapse 4000; ClickTab urgent;
                              ClickTab upcoming] w) "2024-06-11"
    ≡ₚ [apt].
Proof.
  intros apt w.
  apply (view_is_permutation [] "2024-06-11" storeToggle
           [Elapse 4000; ClickTab urgent; ClickTab upcoming] w).
  repeat constructor.
Defined.

(** * The urgent to-dos *)

Lemma priorityRank_inj (p q : Priority) :
  priorityRank p = priorityRank q → p = q.
Proof. by destruct p, q. Qed.

(** The comparator orders by rank, then by due time, NaN (two missing due
    times) counting as "equal". *)
Lemma compareUrgent_precedes (a b : UrgentTodo) :
  precedes compareUrgent a b ↔ urgent_le a b.
Proof.
  unfold precedes, SortCompare, compareUrgent, urgent_le, due_le, orInfinity.
  destruct (priority a), (priority b), (dueAt a) as [x|], (dueAt b) as [y|];
    simpl; try destruct (x - y =? 0)%Z eqn:E; simpl;
    split; try (intros [?|[? ?]]); intros; try (done || lia);
    try (left; lia); try (right; split; [done|]; done || lia).
Qed.

Lemma urgent_le_total (a b : UrgentTodo) : urgent_le a b ∨ urgent_le b a.
Proof.
  unfold urgent_le, due_le.
  destruct (Z.lt_trichotomy (priorityRank (priority a))
              (priorityRank (priority b))) as [H|[H|H]].
  - left. by left.
  - apply priorityRank_inj in H.
    destruct (dueAt a) as [x|], (dueAt b) as [y|].
    + destruct (Z.le_ge_cases x y); [left | right]; by right.
    + left. by right.
    + right. by right.
    + left. by right.
  - right. by left.
Qed.

Lemma urgent_le_trans (a b c : UrgentTodo) :
  urgent_le a b → urgent_le b c → urgent_le a c.
Proof.
  unfold urgent_le, due_le.
  intros [Hab|[Eab Dab]] [Hbc|[Ebc Dbc]].
  - left. lia.
  - left. rewrite <- Ebc. done.
  - left. rewrite Eab. done.
  - right. split; [congruence|].
    destruct (dueAt a), (dueAt b), (dueAt c); try done. lia.
Qed.

Lemma sort_urgent_sorted (l : list UrgentTodo) :
  StronglySorted urgent_le (sort compareUrgent l).
Proof.
  eapply StronglySorted_weaken;
    [|apply (sort_StronglySorted compareUrgent)].
  - intros a b. apply compareUrgent_precedes.
  - intros a b. rewrite !compareUrgent_precedes. apply urgent_le_total.
  - intros a b c. rewrite !compareUrgent_precedes. apply urgent_le_trans.
Qed.

Lemma UrgentTodosView_sort (todos : list UrgentTodo) :
  UrgentTodosView todos = sort compareUrgent todos.
Proof.
  unfold UrgentTodosView. case_decide as H; [|done].
  by apply length_zero_iff_nil in H as ->.
Qed.

(** C4.  The urgent view lists exactly what it is given, ordered by
    priority rank (high 0, medium 1, low 2) and, within a priority, by due
    time with the items that have none last; on the page it is given the
    items that are not done. *)
Theorem urgent_sorted (todos : list UrgentTodo) (w : World) :
  (priorityRank high = 0 ∧ priorityRank medium = 1 ∧
   priorityRank low = 2)%Z ∧
  UrgentTodosView todos ≡ₚ todos ∧
  StronglySorted urgent_le (UrgentTodosView todos) ∧
  (∀ i j a b, i < j →
     UrgentTodosView todos !! i = Some a →
     UrgentTodosView todos !! j = Some b →
     (priorityRank (priority a) ≤ priorityRank (priority b))%Z ∧
     (priority a = priority b →
      match dueAt a, dueAt b with
      | Some x, Some y => (x ≤ y)%Z
      | Some _, None => True
      | None, Some _ => False
      | None, None => True
      end)) ∧
  (∀ t, t ∈ UrgentTodosView (upcomingUrgent w) ↔
        t ∈ urgentTodos w ∧ done t = false).
Proof.
  split; [done|]. rewrite !UrgentTodosView_sort. split_and!.
  - apply sort_Permutation.
  - apply sort_urgent_sorted.
  - intros i j a b Hij Hi Hj.
    pose proof (StronglySorted_lookup _ _ i j a b
                  (sort_urgent_sorted todos) Hij Hi Hj) as [Hlt|[Heq Hdue]].
    + split; [lia|]. intros E. rewrite E in Hlt. lia.
    + split; [rewrite Heq; lia|]. intros _. unfold due_le in Hdue.
      by destruct (dueAt a), (dueAt b).
  - intros t. rewrite sort_Permutation. unfold upcomingUrgent.
    rewrite !list_elem_of_In, filter_In. by rewrite negb_true_iff.
Qed.

(** The example of the specification: low/t1, high/none, high/t0 with
    t0 < t1 is listed as high/t0, high/none, low/t1. *)
Lemma urgent_sorted_witness :
  let todo i p d := {| todo_id := i; todo_title := "call"; done := false;
                       priority := p; dueAt := d |} in
  let todos := [todo "a" low (Some 200%Z); todo "b" high None;
                todo "c" high (Some 100%Z)] in
  UrgentTodosView todos
    = [todo "c" high (Some 100%Z); todo "b" high None;
       todo "a" low (Some 200%Z)] ∧
  StronglySorted urgent_le (UrgentTodosView todos).
Proof.
  intros todo todos. split; [reflexivity|].
  apply (urgent_sorted todos (mount ∅ [])).
Defined.

(** * Further properties of the gate *)

(** What the passing of time does, by whether a deadline is reached. *)
Lemma elapse_cases (dt : nat) (w : World) :
  (code (elapse dt w) = code w ∧ error (elapse dt w) = error w ∧
   timers (elapse dt w) = timers w ∧
   Forall (λ t, now w + dt < t) (timers w)) ∨
  (code (elapse dt w) = "" ∧ error (elapse dt w) = false ∧
   ∃ t, t ∈ timers w ∧ t ≤ now w + dt).
Proof.
  rewrite elapse_timers. unfold elapse. rewrite timerCallback_fold.
  destruct (filter (λ d, d ≤ now w + dt) (timers w)) as [|t due] eqn:Hdue.
  - left. simpl.
    assert (Forall (λ t, now w + dt < t) (timers w)) as Hall.
    { apply Forall_forall. intros t Hin.
      destruct (decide (t ≤ now w + dt)) as [Hle|]; [|lia].
      by destruct (filter_nil_not_elem_of _ _ t Hdue Hle). }
    split_and!; try done.
    clear Hdue. induction Hall as [|t l Ht Hall IH]; [done|].
    by rewrite filter_cons_True, IH.
  - right. split_and!; try done. exists t.
    assert (t ∈ filter (λ d, d ≤ now w + dt) (timers w)) as Hin
      by (rewrite Hdue; left).
    apply list_elem_of_filter in Hin as [? ?]. done.
Qed.

(** The fields a digit click can change, by outcome. *)
Lemma clickDigit_cases (d : Digit) (w : World) :
  clickDigit d w = w ∨
  (unlocked w = false ∧ String.length (code w) < 3 ∧
   (clickDigit d w = setCode (code w +:+ digitLabel d) w ∧
    String.length (code w +:+ digitLabel d) ≠ 3
    ∨
    clickDigit d w =
      setError false (setItem STORAGE_KEY "true"
        (setUnlocked_true (setCode CODE_LOCK w))) ∧
    code w +:+ digitLabel d = CODE_LOCK
    ∨
    clickDigit d w =
      setTimeout 1000 (setError true (setCode (code w +:+ digitLabel d) w)) ∧
    String.length (code w +:+ digitLabel d) = 3 ∧
    code w +:+ digitLabel d ≠ CODE_LOCK)).
Proof.
  unfold clickDigit. destruct (unlocked w) eqn:Hu; [by left|].
  case_decide as Hlen; [by left|]. right.
  split; [done|]. split; [lia|].
  destruct (decide (String.length (code w +:+ digitLabel d) = 3)) as [H3|H3].
  - destruct (decide (code w +:+ digitLabel d = CODE_LOCK)) as [Hm|Hm].
    + right. left. split; [|done]. by apply handleButtonPress_match.
    + right. right. split; [|done]. by apply handleButtonPress_mismatch.
  - left. split; [|done]. by apply handleButtonPress_short.
Qed.

(** The passcode is typed by 3 on an entry that reads "33". *)
Lemma passcode_completed (c : string) (d : Digit) :
  c +:+ digitLabel d = CODE_LOCK → c = "33" ∧ d = D3.
Proof.
  intros H.
  assert (String.length c = 2) as Hlen.
  { apply (f_equal String.length) in H.
    rewrite length_app, digitLabel_length in H. simpl in H. lia. }
  destruct c as [|c1 [|c2 [|c3 c]]]; simpl in Hlen; try lia.
  rewrite !app_String in H. injection H as -> -> H.
  split; [done|]. by destruct d.
Qed.

Lemma elapse_rest (dt : nat) (w : World) :
  tab (elapse dt w) = tab w ∧ fetches (elapse dt w) = fetches w ∧
  storeLoads (elapse dt w) = storeLoads w.
Proof. unfold elapse. rewrite timerCallback_fold. by destruct (filter _ _). Qed.

Lemma mount_gateInv (storage : gmap string string) (store : list UrgentTodo) :
  gateInv (mount storage store).
Proof.
  unfold gateInv, mount, mountEffect, setUnlocked_true, getItem. simpl.
  case_decide; simpl; split_and!; done.
Qed.

Lemma clickDigit_gateInv (d : Digit) (w : World) :
  gateInv w → gateInv (clickDigit d w).
Proof.
  intros (Herr & Hfull & Htm & Hmark & Hlock).
  destruct (clickDigit_cases d w)
    as [->|(Hu & Hlen & [[-> Hn3]|[[-> Hm]|(-> & H3 & Hm)]])]; [done|..].
  - (* a first or second digit *)
    assert (error w = false) as He.
    { destruct (error w) eqn:E; [|done]. destruct (Herr eq_refl) as (_ & ? & _).
      lia. }
    unfold gateInv, getItem. simpl. rewrite He, Hu.
    split_and!; try done. intros _. by apply Hlock.
  - (* the passcode *)
    unfold gateInv, getItem, setUnlocked_true. simpl. rewrite Hu. simpl.
    split_and!; try done. intros _. apply lookup_insert_eq.
  - (* a wrong third digit *)
    unfold gateInv, getItem. simpl. rewrite Hu. split_and!; try done.
    + intros _. split_and!; try done. by destruct (timers w).
    + apply Forall_app. split; [done|]. constructor; [lia|constructor].
    + intros _. by apply Hlock.
Qed.

Lemma elapse_gateInv (dt : nat) (w : World) :
  gateInv w → gateInv (elapse dt w).
Proof.
  intros (Herr & Hfull & Htm & Hmark & Hlock).
  destruct (elapse_rest dt w) as (Etab & Efetch & Eload).
  assert (Forall (λ t, now (elapse dt w) < t ∧ t ≤ now (elapse dt w) + 1000)
            (timers (elapse dt w))) as Htm'.
  { rewrite elapse_timers, elapse_now. apply Forall_forall. intros t Hin.
    apply list_elem_of_filter in Hin as [Hlt Hin].
    rewrite Forall_forall in Htm. apply Htm in Hin. lia. }
  unfold gateInv, getItem.
  rewrite elapse_unlocked, elapse_sessionStorage, elapse_appointments,
    Etab, Efetch, Eload.
  destruct (elapse_cases dt w) as [(Ec & Ee & Et & _)|(Ec & Ee & _)].
  - rewrite Ec, Ee. rewrite Et in *. done.
  - rewrite Ec, Ee. split_and!; done.
Qed.

Lemma step_gateInv (toggle : string → list UrgentTodo → list UrgentTodo)
    (e : Event) (w : World) :
  gateInv w → gateInv (step toggle e w).
Proof.
  intros Hinv. destruct e as [d| |dt|t|id|r today|items].
  - by apply clickDigit_gateInv.
  - pose proof Hinv as (Herr & Hfull & Htm & Hmark & Hlock).
    simpl. unfold clickClear. destruct (unlocked w) eqn:Hu; [done|].
    unfold gateInv, getItem. simpl. rewrite Hu.
    split_and!; try done; intros _; by apply Hlock.
  - by apply elapse_gateInv.
  - pose proof Hinv as (Herr & Hfull & Htm & Hmark & Hlock).
    simpl. destruct (unlocked w) eqn:Hu; [|done].
    unfold gateInv, getItem. simpl. rewrite Hu. split_and!; try done;
      intros He; by destruct (Herr He).
  - pose proof Hinv as (Herr & Hfull & Htm & Hmark & Hlock).
    simpl. destruct (unlocked w) eqn:Hu; [|done].
    unfold gateInv, getItem. simpl. rewrite Hu. split_and!; try done;
      intros He; by destruct (Herr He).
  - pose proof Hinv as (Herr & Hfull & Htm & Hmark & Hlock).
    destruct (unlocked w) eqn:Hu.
    + destruct (settle_gate r today w)
        as (Eu & Ec & Ee & Et & En & Es).
      unfold gateInv, getItem. simpl step. rewrite Eu, Ec, Ee, Et, En, Es, Hu.
      split_and!; try done;
        intros He; by destruct (Herr He).
    + destruct (Hlock eq_refl) as (_ & Hf & _).
      simpl. unfold settle. rewrite Hf. unfold gateInv. rewrite Hu.
      split_and!; done.
  - pose proof Hinv as (Herr & Hfull & Htm & Hmark & Hlock).
    unfold gateInv, getItem. simpl. split_and!; done.
Qed.

Lemma reachable_gateInv (toggle : string → list UrgentTodo → list UrgentTodo)
    (w : World) :
  reachable toggle w → gateInv w.
Proof.
  induction 1 as [storage store|e w _ IH];
    [apply mount_gateInv | by apply step_gateInv].
Qed.

(** X2.  The error state never lasts: from any state the page can be in,
    once 1000ms have passed the error flag is down and no callback is
    pending; and if the flag was up, the entry is empty again. *)
Theorem error_clears_within_a_second
    (toggle : string → list UrgentTodo → list UrgentTodo)
    (w : World) (dt : nat) :
  reachable toggle w → 1000 ≤ dt →
  error (elapse dt w) = false ∧
  timers (elapse dt w) = [] ∧
  (error w = true → code (elapse dt w) = "").
Proof.
  intros Hr Hdt.
  destruct (reachable_gateInv toggle w Hr) as (Herr & _ & Htm & _).
  rewrite Forall_forall in Htm.
  assert (timers (elapse dt w) = []) as Hnone.
  { rewrite elapse_timers.
    destruct (filter _ _) as [|t l] eqn:E; [done|].
    assert (t ∈ filter (λ d, now w + dt < d) (timers w)) as Hin
      by (rewrite E; left).
    apply list_elem_of_filter in Hin as [Hlt Hin]. apply Htm in Hin. lia. }
  assert (error w = true → code (elapse dt w) = "" ∧
                           error (elapse dt w) = false) as Hclr.
  { intros He. destruct (Herr He) as (_ & _ & _ & Hne).
    assert (∃ t, t ∈ timers w) as [t Hin]
      by (destruct (timers w) as [|t l]; [done | exists t; left]).
    apply (elapse_due dt w t); [done|]. apply Htm in Hin. lia. }
  split_and!; [|done|by intros He; apply Hclr].
  destruct (error w) eqn:He; [by apply Hclr|].
  destruct (elapse_together dt w) as [[_ ?]|[_ ?]]; congruence.
Qed.

Lemma error_clears_within_a_second_witness :
  let w := run storeToggle [ClickDigit D1; ClickDigit D2; ClickDigit D4;
                            Elapse 300] (mount ∅ []) in
  error w = true ∧ error (elapse 1000 w) = false ∧
  timers (elapse 1000 w) = [].
Proof.
  intros w. split; [reflexivity|].
  assert (reachable storeToggle w) as Hr
    by (repeat apply reachable_step; apply reachable_mount).
  destruct (error_clears_within_a_second storeToggle w 1000 Hr (le_n 1000))
    as (He & Ht & _).
  split; [exact He | exact Ht].
Defined.

(** X3.  The error flag is up only on a locked gate whose entry is full
    and is not the passcode; and on a locked gate the digit buttons are
    disabled exactly while the error flag is up. *)
Theorem keypad_disabled_iff_error
    (toggle : string → list UrgentTodo → list UrgentTodo) (w : World) :
  reachable toggle w →
  (error w = true →
   unlocked w = false ∧ String.length (code w) = 3 ∧ code w ≠ CODE_LOCK) ∧
  (unlocked w = false → (3 ≤ String.length (code w) ↔ error w = true)).
Proof.
  intros Hr.
  destruct (reachable_gateInv toggle w Hr) as (Herr & Hfull & _).
  pose proof (reachable_code_bounded toggle w Hr) as Hb.
  split.
  - intros He. by destruct (Herr He) as (? & ? & ? & _).
  - intros Hu. split.
    + intros H3. apply Hfull; [done | lia].
    + intros He. destruct (Herr He) as (_ & -> & _). done.
Qed.

Lemma keypad_disabled_iff_error_witness :
  let w := run storeToggle [ClickDigit D1; ClickDigit D2; ClickDigit D4]
             (mount ∅ []) in
  3 ≤ String.length (code w) ↔ error w = true.
Proof.
  intros w.
  assert (reachable storeToggle w) as Hr
    by (repeat apply reachable_step; apply reachable_mount).
  destruct (keypad_disabled_iff_error storeToggle w Hr) as [_ H].
  apply H. reflexivity.
Defined.

(** X4.  What the lock screen shows of the entry, in every state of a
    locked gate: as many blue dots as digits typed (at most two) followed
    by grey ones, or three red dots; three blue dots are never shown. *)
Theorem code_display_shows_entry
    (toggle : string → list UrgentTodo → list UrgentTodo) (w : World) :
  reachable toggle w → unlocked w = false →
  (error w = false ∧ String.length (code w) < 3 ∧
   codeDisplay w = replicate (String.length (code w)) DotBlue
                   ++ replicate (3 - String.length (code w)) DotGrey) ∨
  (error w = true ∧ String.length (code w) = 3 ∧
   codeDisplay w = [DotRed; DotRed; DotRed]).
Proof.
  intros Hr Hu.
  destruct (reachable_gateInv toggle w Hr) as (Herr & Hfull & _).
  pose proof (reachable_code_bounded toggle w Hr) as Hb.
  unfold codeDisplay. destruct (error w) eqn:He.
  - right. by destruct (Herr eq_refl) as (_ & ? & _).
  - left.
    assert (String.length (code w) < 3) as Hlt.
    { destruct (decide (String.length (code w) = 3)) as [H3|]; [|lia].
      pose proof (Hfull Hu H3). congruence. }
    split; [done|]. split; [done|].
    destruct (String.length (code w)) as [|[|[|n]]]; [done..|lia].
Qed.

Lemma code_display_shows_entry_witness :
  codeDisplay (run storeToggle [ClickDigit D1; ClickDigit D2] (mount ∅ []))
    = [DotBlue; DotBlue; DotGrey] ∧
  codeDisplay (run storeToggle [ClickDigit D1; ClickDigit D2; ClickDigit D4]
                 (mount ∅ []))
    = [DotRed; DotRed; DotRed].
Proof.
  split.
  - assert (reachable storeToggle
              (run storeToggle [ClickDigit D1; ClickDigit D2] (mount ∅ [])))
      as Hr by (repeat apply reachable_step; apply reachable_mount).
    destruct (code_display_shows_entry storeToggle _ Hr eq_refl)
      as [(_ & _ & H)|(He & _)]; [exact H | discriminate He].
  - reflexivity.
Defined.

(** X5.  Whenever the gate is unlocked the marker "true" is in the session
    storage, so a page mounted again on that storage starts unlocked. *)
Theorem unlock_survives_remount
    (toggle : string → list UrgentTodo → list UrgentTodo)
    (w : World) (store : list UrgentTodo) :
  reachable toggle w → unlocked w = true →
  getItem STORAGE_KEY w = Some "true" ∧
  unlocked (mount (sessionStorage w) store) = true.
Proof.
  intros Hr Hu.
  destruct (reachable_gateInv toggle w Hr) as (_ & _ & _ & Hmark & _).
  specialize (Hmark Hu). split; [done|].
  unfold mount, mountEffect, getItem in *. simpl.
  rewrite decide_True by done. apply setUnlocked_true_unlocked.
Qed.

Lemma unlock_survives_remount_witness :
  let w := run storeToggle [ClickDigit D3; ClickDigit D3; ClickDigit D3]
             (mount ∅ []) in
  unlocked (mount ∅ []) = false ∧
  unlocked (mount (sessionStorage w) []) = true.
Proof.
  intros w. split; [reflexivity|].
  assert (reachable storeToggle w) as Hr
    by (repeat apply reachable_step; apply reachable_mount).
  apply (unlock_survives_remount storeToggle w [] Hr eq_refl).
Defined.

(** One event writes nothing to the session storage, or writes "true"
    under the page's key. *)
Lemma step_sessionStorage
    (toggle : string → list UrgentTodo → list UrgentTodo)
    (e : Event) (w : World) :
  sessionStorage (step toggle e w) = sessionStorage w ∨
  sessionStorage (step toggle e w)
    = <[STORAGE_KEY:="true"]> (sessionStorage w).
Proof.
  destruct e as [d| |dt|t|id|r today|items]; simpl.
  - destruct (clickDigit_cases d w)
      as [->|(Hu & _ & [[-> _]|[[-> _]|(-> & _)]])]; [by left..| |by left].
    right. unfold setUnlocked_true. simpl. by rewrite Hu.
  - left. unfold clickClear. by destruct (unlocked w).
  - left. apply elapse_sessionStorage.
  - left. by destruct (unlocked w).
  - left. by destruct (unlocked w).
  - left. by destruct (settle_gate r today w) as (_ & _ & _ & _ & _ & ->).
  - by left.
Qed.

(** X6.  The page writes one thing to the session storage: "true" under
    its own key.  Through any events every other key keeps its value, and
    the page's key keeps its value or becomes "true". *)
Theorem storage_only_marker_written
    (toggle : string → list UrgentTodo → list UrgentTodo)
    (es : list Event) (w : World) (k : string) :
  k ≠ STORAGE_KEY →
  sessionStorage (run toggle es w) !! k = sessionStorage w !! k ∧
  (getItem STORAGE_KEY (run toggle es w) = getItem STORAGE_KEY w ∨
   getItem STORAGE_KEY (run toggle es w) = Some "true").
Proof.
  intros Hk. unfold getItem. revert w.
  induction es as [|e es IH]; intros w; [by split; [|left]|].
  rewrite run_cons. destruct (IH (step toggle e w)) as [IHk IHm].
  destruct (step_sessionStorage toggle e w) as [E|E]; rewrite E in *.
  - done.
  - split.
    + rewrite IHk. by apply lookup_insert_ne.
    + right. destruct IHm as [->| ->]; [apply lookup_insert_eq | done].
Qed.

Lemma storage_only_marker_written_witness :
  let storage : gmap string string := {[ "theme" := "dark" ]} in
  let w := run storeToggle [ClickDigit D3; ClickDigit D3; ClickDigit D3]
             (mount storage []) in
  sessionStorage w !! "theme" = Some "dark".
Proof.
  intros storage w.
  assert ("theme" ≠ STORAGE_KEY) as Hk by discriminate.
  destruct (storage_only_marker_written storeToggle
              [ClickDigit D3; ClickDigit D3; ClickDigit D3]
              (mount storage []) "theme" Hk) as [H _].
  subst w. rewrite H. subst storage. apply lookup_singleton_eq.
Defined.

(** The one event that unlocks. *)
Lemma only_passcode_unlocks_step
    (toggle : string → list UrgentTodo → list UrgentTodo)
    (e : Event) (w : World) :
  unlocked w = false → unlocked (step toggle e w) = true →
  e = ClickDigit D3 ∧ code w = "33".
Proof.
  intros Hu Hu'. destruct e as [d| |dt|t|id|r today|items];
    cbn [step] in Hu'.
  - destruct (clickDigit_cases d w)
      as [E|(_ & _ & [[E _]|[[_ Hm]|(E & _)]])];
      try (rewrite E in Hu'; simpl in Hu'; congruence).
    destruct (passcode_completed _ _ Hm) as [-> ->]. done.
  - unfold clickClear in Hu'. rewrite Hu in Hu'. simpl in Hu'. congruence.
  - rewrite elapse_unlocked in Hu'. congruence.
  - rewrite Hu in Hu'. congruence.
  - rewrite Hu in Hu'. congruence.
  - destruct (settle_gate r today w) as (E & _). congruence.
  - simpl in Hu'. congruence.
Qed.

(** X7.  Nothing but the passcode unlocks: if one event takes the gate
    from locked to unlocked, it is a click on 3 with the entry "33". *)
Theorem only_passcode_unlocks
    (toggle : string → list UrgentTodo → list UrgentTodo)
    (e : Event) (w : World) :
  unlocked w = false → unlocked (step toggle e w) = true →
  e = ClickDigit D3 ∧ code w = "33".
Proof. apply only_passcode_unlocks_step. Qed.

Lemma only_passcode_unlocks_witness :
  let w := run storeToggle [ClickDigit D3; ClickDigit D3] (mount ∅ []) in
  ClickDigit D3 = ClickDigit D3 ∧ code w = "33".
Proof.
  intros w.
  apply (only_passcode_unlocks storeToggle (ClickDigit D3) w);
    reflexivity.
Defined.

(** X8.  A locked gate holds no data: in every state of the page in which
    the gate is locked no appointment has been stored, no fetch and no
    store load has been started, the first tab is selected, and the
    upcoming list is empty. *)
Theorem locked_gate_holds_no_data
    (toggle : string → list UrgentTodo → list UrgentTodo)
    (w : World) (renderDay : string) :
  reachable toggle w → unlocked w = false →
  appointments w = [] ∧ fetches w = 0 ∧ storeLoads w = 0 ∧
  tab w = upcoming ∧ displayed w renderDay = [].
Proof.
  intros Hr Hu.
  destruct (reachable_gateInv toggle w Hr) as (_ & _ & _ & _ & Hlock).
  destruct (Hlock Hu) as (Ha & Hf & Hl & Ht).
  split_and!; try done. unfold displayed. by rewrite Ha.
Qed.

Lemma locked_gate_holds_no_data_witness :
  let apt := {| apt_id := "a1"; apt_title := "visit"; date := "2024-06-10";
                start := "09:00"; durationMin := 30 |} in
  let w := run storeToggle
             [ClickDigit D1; ClickTab urgent;
              FetchSettled (Body (Object true (ArrayOf [apt]))) "2024-06-01"]
             (mount ∅ []) in
  appointments w = [] ∧ tab w = upcoming.
Proof.
  intros apt w.
  assert (reachable storeToggle w) as Hr
    by (repeat apply reachable_step; apply reachable_mount).
  destruct (locked_gate_holds_no_data storeToggle w "2024-06-10" Hr eq_refl)
    as (Ha & _ & _ & Ht & _).
  split; [exact Ha | exact Ht].
Defined.

(** X9.  The numbers in the tab labels are the numbers of rows the two
    views list, and the urgent one counts the items that are not done. *)
Theorem tab_counts_match_rows (w : World) (renderDay : string) :
  tabCounts w
    = (length (UpcomingAppointmentsView (appointments w) renderDay),
       length (UrgentTodosView (upcomingUrgent w))) ∧
  (tabCounts w).2
    = length (List.filter (λ t, negb (done t)) (urgentTodos w)) ∧
  (tabCounts w).2 ≤ length (urgentTodos w).
Proof.
  unfold tabCounts, UpcomingAppointmentsView. simpl.
  rewrite length_map, sort_length, UrgentTodosView_sort, sort_length.
  split_and!; try done. unfold upcomingUrgent.
  induction (urgentTodos w) as [|t l IH]; simpl; [done|].
  destruct (negb (done t)); simpl; lia.
Qed.

(** * Further properties of the two sorted views *)

Section ArraySortComposition.
Context {A : Type} (comparefn : A → A → Number).
Hypothesis precedes_total :
  ∀ x y, precedes comparefn x y ∨ precedes comparefn y x.
Hypothesis precedes_trans :
  ∀ x y z, precedes comparefn x y → precedes comparefn y z →
           precedes comparefn x z.

Lemma insert_front (x : A) (l : list A) :
  Forall (precedes comparefn x) l → insert comparefn x l = x :: l.
Proof.
  destruct 1 as [|y l Hxy _]; simpl; [done|]. by rewrite decide_True.
Qed.

(** A sorted array is left as it is. *)
Lemma sort_sorted (l : list A) :
  StronglySorted (precedes comparefn) l → sort comparefn l = l.
Proof.
  induction 1 as [|x l Hs IH Hx]; [done|].
  simpl. fold (sort comparefn l). rewrite IH. by apply insert_front.
Qed.

Lemma sort_idempotent (l : list A) :
  sort comparefn (sort comparefn l) = sort comparefn l.
Proof. apply sort_sorted. by apply sort_StronglySorted. Qed.

Lemma Forall_List_filter (P : A → Prop) (p : A → bool) (l : list A) :
  Forall P l → Forall P (List.filter p l).
Proof.
  induction 1 as [|x l Hx Hl IH]; simpl; [done|].
  destruct (p x); [by constructor | done].
Qed.

Lemma filter_insert (p : A → bool) (x : A) (l : list A) :
  StronglySorted (precedes comparefn) l →
  List.filter p (insert comparefn x l) =
  if p x then insert comparefn x (List.filter p l) else List.filter p l.
Proof.
  induction 1 as [|y l Hs IH Hy]; simpl; [by destruct (p x)|].
  case_decide as Hxy.
  - simpl. destruct (p x) eqn:Hpx; [|done].
    symmetry. apply insert_front.
    apply (Forall_List_filter _ p (y :: l)). constructor; [done|].
    eapply Forall_impl; [exact Hy|]. intros z Hyz.
    by apply (precedes_trans x y z).
  - simpl. rewrite IH. destruct (p x), (p y); simpl; try done.
    by rewrite decide_False.
Qed.

(** Filtering before the sort or after it gives the same array. *)
Lemma sort_filter (p : A → bool) (l : list A) :
  sort comparefn (List.filter p l) = List.filter p (sort comparefn l).
Proof.
  induction l as [|x l IH]; simpl; [done|].
  fold (sort comparefn l).
  rewrite filter_insert by (by apply sort_StronglySorted).
  destruct (p x); simpl; [|done]. fold (sort comparefn (List.filter p l)).
  by rewrite IH.
Qed.
End ArraySortComposition.

Lemma compareAppointments_total (a b : Appointment) :
  precedes compareAppointments a b ∨ precedes compareAppointments b a.
Proof. rewrite !compareAppointments_precedes. apply apt_le_total. Qed.

Lemma compareAppointments_trans (a b c : Appointment) :
  precedes compareAppointments a b → precedes compareAppointments b c →
  precedes compareAppointments a c.
Proof. rewrite !compareAppointments_precedes. apply apt_le_trans. Qed.

Lemma compareUrgent_total (a b : UrgentTodo) :
  precedes compareUrgent a b ∨ precedes compareUrgent b a.
Proof. rewrite !compareUrgent_precedes. apply urgent_le_total. Qed.

Lemma compareUrgent_trans (a b c : UrgentTodo) :
  precedes compareUrgent a b → precedes compareUrgent b c →
  precedes compareUrgent a c.
Proof. rewrite !compareUrgent_precedes. apply urgent_le_trans. Qed.

(** Two appointments compare equal exactly when they have the same date
    and the same start. *)
Lemma compareAppointments_tied (k a : Appointment) :
  tied compareAppointments k a ↔ date a = date k ∧ start a = start k.
Proof.
  unfold tied. rewrite !compareAppointments_precedes. unfold apt_le.
  rewrite !str_lt_compare, !str_lt_false. split.
  - intros [[Hka|[Ed Hs1]] [Hak|[Ed' Hs2]]].
    + pose proof (compare_Lt_trans _ _ _ Hka Hak) as H.
      by rewrite compare_refl in H.
    + rewrite Ed', compare_refl in Hka. done.
    + rewrite Ed, compare_refl in Hak. done.
    + split; [done|].
      destruct (String.compare (start a) (start k)) eqn:E.
      * by apply String.compare_eq_iff.
      * done.
      * by apply compare_Gt_Lt in E.
  - intros [Ed Es]. rewrite Ed, Es, !compare_refl.
    split; right; done.
Qed.

(** Two to-dos compare equal exactly when they have the same priority and
    the same due time, or both none. *)
Lemma compareUrgent_tied (k a : UrgentTodo) :
  tied compareUrgent k a ↔ priority a = priority k ∧ dueAt a = dueAt k.
Proof.
  unfold tied. rewrite !compareUrgent_precedes. unfold urgent_le, due_le.
  split.
  - intros [[Hka|[Ep Hd1]] [Hak|[Ep' Hd2]]]; try lia.
    + rewrite Ep' in Hka. lia.
    + rewrite Ep in Hak. lia.
    + split; [done|].
      destruct (dueAt a), (dueAt k); try done. f_equal. lia.
  - intros [-> ->]. split; right; (split; [done|]);
      destruct (dueAt k); done || lia.
Qed.

(** X10.  Appointments with the same date and the same start are listed
    in the order the array had them. *)
Theorem same_slot_keeps_order
    (l : list Appointment) (k : Appointment) (renderDay : string) :
  filter (λ a, date a = date k ∧ start a = start k)
         ((UpcomingAppointmentsView l renderDay).*1)
  = filter (λ a, date a = date k ∧ start a = start k) l.
Proof.
  rewrite view_lists_input.
  rewrite !(list_filter_iff
              (λ a, date a = date k ∧ start a = start k)
              (tied compareAppointments k))
    by (intros a; symmetry; apply compareAppointments_tied).
  apply sort_stable. apply compareAppointments_trans.
Qed.

(** X11.  Urgent to-dos with the same priority and the same due time (or
    both without one) are listed in the order the array had them. *)
Theorem same_urgency_keeps_order (todos : list UrgentTodo) (k : UrgentTodo) :
  filter (λ t, priority t = priority k ∧ dueAt t = dueAt k)
         (UrgentTodosView todos)
  = filter (λ t, priority t = priority k ∧ dueAt t = dueAt k) todos.
Proof.
  rewrite UrgentTodosView_sort.
  rewrite !(list_filter_iff
              (λ t, priority t = priority k ∧ dueAt t = dueAt k)
              (tied compareUrgent k))
    by (intros t; symmetry; apply compareUrgent_tied).
  apply sort_stable. apply compareUrgent_trans.
Qed.

(** X12.  Both views are idempotent: given the rows they list, they list
    the same rows in the same order. *)
Theorem views_idempotent
    (l : list Appointment) (renderDay renderDay' : string)
    (todos : list UrgentTodo) :
  (UpcomingAppointmentsView
     ((UpcomingAppointmentsView l renderDay).*1) renderDay').*1
  = (UpcomingAppointmentsView l renderDay).*1 ∧
  UrgentTodosView (UrgentTodosView todos) = UrgentTodosView todos.
Proof.
  rewrite !view_lists_input, !UrgentTodosView_sort. split.
  - apply sort_idempotent;
      [apply compareAppointments_total | apply compareAppointments_trans].
  - apply sort_idempotent;
      [apply compareUrgent_total | apply compareUrgent_trans].
Qed.

(** X13.  The filter of the fetch and the sort of the view commute: the
    rows listed for the filtered array are the rows listed for the whole
    array with the past ones taken out, in the same order. *)
Theorem filter_and_sort_commute
    (all : list Appointment) (today renderDay : string) :
  (UpcomingAppointmentsView
     (List.filter (λ apt, str_ge (date apt) today) all) renderDay).*1
  = List.filter (λ apt, str_ge (date apt) today)
      ((UpcomingAppointmentsView all renderDay).*1).
Proof.
  rewrite !view_lists_input.
  apply sort_filter;
    [apply compareAppointments_total | apply compareAppointments_trans].
Qed.

(** X14.  Rendered on the day of the fetch, with ISO dates on the items
    and for the day, the rows flagged "Today" come first: no row of a
    later date stands above a row of today. *)
Theorem today_rows_first
    (all : list Appointment) (today : string) (t : CalDate) (w w' : World)
    (i j : nat) (a b : Appointment) (fa fb : bool) :
  wfCal t → today = isoDate t → Forall isoDated all →
  loadAppointments (Body (Object true (ArrayOf all))) today w = Returns w' →
  i < j →
  UpcomingAppointmentsView (appointments w') today !! i = Some (a, fa) →
  UpcomingAppointmentsView (appointments w') today !! j = Some (b, fb) →
  fb = true → fa = true.
Proof.
  intros _ _ _ Hload Hij Hi Hj Hfb. injection Hload as <-.
  unfold UpcomingAppointmentsView in Hi, Hj. simpl in Hi, Hj.
  rewrite list_lookup_fmap in Hi, Hj.
  set (kept := List.filter (λ apt, str_ge (date apt) today) all) in *.
  destruct (sort compareAppointments kept !! i) as [a'|] eqn:Ei;
    [|done].
  destruct (sort compareAppointments kept !! j) as [b'|] eqn:Ej;
    [|done].
  simpl in Hi, Hj. injection Hi as -> <-. injection Hj as -> <-.
  apply bool_decide_eq_true in Hfb. apply bool_decide_eq_true.
  assert (a ∈ kept) as Hin.
  { rewrite <- (sort_Permutation compareAppointments kept).
    by eapply list_elem_of_lookup_2. }
  apply elem_of_filter_upcoming in Hin as [_ Hge].
  apply str_lt_false in Hge.
  destruct (StronglySorted_lookup _ _ i j a b
              (sort_appointments_sorted kept) Hij Ei Ej) as [Hlt|[Heq _]].
  - apply str_lt_compare in Hlt. by rewrite Hfb in Hlt.
  - congruence.
Qed.

Lemma today_rows_first_witness :
  let apt d hh mm :=
    {| apt_id := "a"; apt_title := "visit";
       date := isoDate {| year := 2024; month := 6; day := d |};
       start := isoTime {| hour := hh; minute := mm |};
       durationMin := 30 |} in
  let all := [apt 11 8 0; apt 10 14 0; apt 10 9 0] in
  bool_decide (date (apt 10 9 0) = "2024-06-10") = true.
Proof.
  intros apt all.
  assert (wfCal {| year := 2024; month := 6; day := 10 |}) as Ht
    by (unfold wfCal; simpl; lia).
  assert (Forall isoDated all) as Hall.
  { repeat constructor.
    - exists {| year := 2024; month := 6; day := 11 |}.
      split; [unfold wfCal; simpl; lia | reflexivity].
    - exists {| year := 2024; month := 6; day := 10 |}.
      split; [unfold wfCal; simpl; lia | reflexivity].
    - exists {| year := 2024; month := 6; day := 10 |}.
      split; [unfold wfCal; simpl; lia | reflexivity]. }
  apply (today_rows_first all "2024-06-10"
           {| year := 2024; month := 6; day := 10 |} (mount ∅ [])
           (setAppointments
              (List.filter (λ x, str_ge (date x) "2024-06-10") all)
              (mount ∅ []))
           0 1 (apt 10 9 0) (apt 10 14 0) _ true Ht eq_refl Hall eq_refl).
  - lia.
  - reflexivity.
  - reflexivity.
  - reflexivity.
Defined.

(** X15.  The placeholders stand for nothing else than an empty list: the
    upcoming view lists no row exactly when it is given no appointment,
    and the urgent view of the page lists none exactly when every to-do
    of the store is done. *)
Theorem placeholders_only_when_empty
    (l : list Appointment) (renderDay : string) (w : World) :
  (UpcomingAppointmentsView l renderDay = [] ↔ l = []) ∧
  (UrgentTodosView (upcomingUrgent w) = [] ↔
   Forall (λ t, done t = true) (urgentTodos w)).
Proof.
  split.
  - split; [|by intros ->].
    intros H. apply (f_equal length) in H.
    unfold UpcomingAppointmentsView in H.
    rewrite length_map, sort_length in H. by destruct l.
  - rewrite UrgentTodosView_sort. unfold upcomingUrgent. split.
    + intros H. apply (f_equal length) in H. rewrite sort_length in H.
      induction (urgentTodos w) as [|t ts IH]; [constructor|].
      simpl in H. destruct (done t) eqn:Hd; simpl in H; [|done].
      constructor; [done | by apply IH].
    + intros Hall.
      assert (List.filter (λ t, negb (done t)) (urgentTodos w) = []) as ->;
        [|done].
      induction Hall as [|t ts Ht _ IH]; simpl; [done|]. by rewrite Ht.
Qed.

(** X16.  Loading starts with the unlock and not before: the event that
    unlocks the gate starts exactly one appointment fetch and one store
    load, with no appointment stored yet; a page that mounts unlocked has
    started one of each as well. *)
Theorem unlock_starts_loading
    (toggle : string → list UrgentTodo → list UrgentTodo)
    (e : Event) (w : World) :
  reachable toggle w →
  unlocked w = false → unlocked (step toggle e w) = true →
  fetches (step toggle e w) = 1 ∧ storeLoads (step toggle e w) = 1 ∧
  appointments (step toggle e w) = [] ∧
  ∀ storage store,
    unlocked (mount storage store) = true →
    fetches (mount storage store) = 1 ∧
    storeLoads (mount storage store) = 1.
Proof.
  intros Hr Hu Hu'.
  destruct (reachable_gateInv toggle w Hr) as (_ & _ & _ & _ & Hlock).
  destruct (Hlock Hu) as (Ha & Hf & Hl & _).
  destruct (only_passcode_unlocks_step toggle e w Hu Hu') as [-> Hc].
  split_and!.
  - cbn [step]. rewrite clickDigit_enabled by (done || rewrite Hc; simpl; lia).
    rewrite handleButtonPress_match by (by rewrite Hc).
    unfold setUnlocked_true. simpl. rewrite Hu. simpl. by rewrite Hf.
  - cbn [step]. rewrite clickDigit_enabled by (done || rewrite Hc; simpl; lia).
    rewrite handleButtonPress_match by (by rewrite Hc).
    unfold setUnlocked_true. simpl. rewrite Hu. simpl. by rewrite Hl.
  - cbn [step]. rewrite clickDigit_enabled by (done || rewrite Hc; simpl; lia).
    rewrite handleButtonPress_match by (by rewrite Hc).
    unfold setUnlocked_true. simpl. by rewrite Hu.
  - intros storage store. unfold mount, mountEffect, setUnlocked_true.
    simpl. by case_decide.
Qed.

Lemma unlock_starts_loading_witness :
  let w := run storeToggle [ClickDigit D3; ClickDigit D3] (mount ∅ []) in
  fetches w = 0 ∧ fetches (step storeToggle (ClickDigit D3) w) = 1.
Proof.
  intros w. split; [reflexivity|].
  assert (reachable storeToggle w) as Hr
    by (repeat apply reachable_step; apply reachable_mount).
  apply (unlock_starts_loading storeToggle (ClickDigit D3) w Hr
           eq_refl eq_refl).
Defined.

(** * Pending callbacks as time passes *)

(** The clock moves by the time that passes, and by nothing else. *)
Lemma step_now (toggle : string → list UrgentTodo → list UrgentTodo)
    (e : Event) (w : World) :
  now (step toggle e w) = now w + elapsed [e].
Proof.
  destruct e as [d| |dt|t|id|r today|items]; cbn [step elapsed foldr].
  - destruct (clickDigit_cases d w)
      as [->|(_ & _ & [[-> _]|[[-> _]|(-> & _)]])];
      unfold setUnlocked_true; simpl; try lia.
    destruct (unlocked w); simpl; lia.
  - unfold clickClear. destruct (unlocked w); simpl; lia.
  - rewrite elapse_now. lia.
  - destruct (unlocked w); simpl; lia.
  - destruct (unlocked w); simpl; lia.
  - destruct (settle_gate r today w) as (_ & _ & _ & _ & -> & _). lia.
  - simpl. lia.
Qed.

Lemma elapsed_cons (e : Event) (es : list Event) :
  elapsed (e :: es) = elapsed [e] + elapsed es.
Proof. destruct e; simpl; lia. Qed.

Lemma run_now (toggle : string → list UrgentTodo → list UrgentTodo)
    (es : list Event) (w : World) :
  now (run toggle es w) = now w + elapsed es.
Proof.
  revert w. induction es as [|e es IH]; intros w; [simpl; lia|].
  rewrite run_cons, IH, step_now, (elapsed_cons e es). lia.
Qed.

(** Nothing with all deadlines ahead: time passes and that is all. *)
Lemma elapse_ahead (dt : nat) (w : World) :
  Forall (λ t, now w + dt < t) (timers w) →
  code (elapse dt w) = code w ∧ error (elapse dt w) = error w ∧
  timers (elapse dt w) = timers w.
Proof.
  intros Hall.
  destruct (elapse_cases dt w) as [(? & ? & ? & _)|(_ & _ & t & Hin & Hle)];
    [done|].
  rewrite Forall_forall in Hall. apply Hall in Hin. lia.
Qed.

(** A callback stays in the queue through every event until its deadline
    is reached. *)
Lemma step_timer_kept (toggle : string → list UrgentTodo → list UrgentTodo)
    (e : Event) (w : World) (t : nat) :
  t ∈ timers w → now w + elapsed [e] < t → t ∈ timers (step toggle e w).
Proof.
  intros Hin Hlt. destruct (isElapse e) eqn:He.
  - destruct e as [| |dt| | | |]; try done. cbn [step].
    rewrite elapse_timers. apply list_elem_of_filter. split; [|done].
    simpl in Hlt. lia.
  - by apply step_keeps_timer.
Qed.

Lemma run_timer_kept (toggle : string → list UrgentTodo → list UrgentTodo)
    (es : list Event) (w : World) (t : nat) :
  t ∈ timers w → now w + elapsed es < t → t ∈ timers (run toggle es w).
Proof.
  revert w. induction es as [|e es IH]; intros w Hin Hlt; [done|].
  rewrite (elapsed_cons e es) in Hlt. rewrite run_cons. apply IH.
  - apply step_timer_kept; [done | lia].
  - rewrite step_now. lia.
Qed.

(** C6 (amended).  After a failed third digit and a [clear()] before the
    deadline, the callback is still queued through whatever happens until
    the deadline: clicks, time passing, store updates, settled fetches.
    When the deadline is reached it empties the entry and clears the
    error flag whatever they hold by then, and touches neither the unlock
    state nor the session storage. *)
Theorem stale_timer_fires_after_clear
    (toggle : string → list UrgentTodo → list UrgentTodo)
    (w : World) (d : Digit) (dt : nat) (es : list Event) (dt' : nat) :
  unlocked w = false →
  String.length (code w) = 2 →
  code w +:+ digitLabel d ≠ CODE_LOCK →
  dt + elapsed es < 1000 →
  1000 ≤ dt + elapsed es + dt' →
  let w1 := clickClear (elapse dt (clickDigit d w)) in
  let w2 := run toggle es w1 in
  let w3 := elapse dt' w2 in
  (code w1 = "" ∧ error w1 = false ∧ now w + 1000 ∈ timers w1) ∧
  now w + 1000 ∈ timers w2 ∧
  (code w3 = "" ∧ error w3 = false ∧
   unlocked w3 = unlocked w2 ∧ sessionStorage w3 = sessionStorage w2).
Proof.
  intros Hl H2 Hne Hdt Hdt' w1 w2 w3.
  assert (String.length (code w +:+ digitLabel d) = 3) as H3
    by (rewrite length_app, digitLabel_length; lia).
  assert (now w + 1000 ∈ timers w1 ∧ now w1 = now w + dt ∧
          code w1 = "" ∧ error w1 = false) as (Hin1 & Hnow1 & Hc1 & He1).
  { subst w1. rewrite clickDigit_enabled by (done || lia).
    rewrite handleButtonPress_mismatch by done.
    set (w' := setTimeout _ _).
    assert (unlocked (elapse dt w') = false) as Hu
      by (by rewrite elapse_unlocked).
    unfold clickClear. rewrite Hu.
    change (timers (handleClear (elapse dt w'))) with (timers (elapse dt w')).
    change (now (handleClear (elapse dt w'))) with (now (elapse dt w')).
    rewrite elapse_timers, elapse_now. split_and!; try done.
    apply list_elem_of_filter. split; [simpl; lia|].
    apply elem_of_app. right. left. }
  assert (now w + 1000 ∈ timers w2) as Hin2
    by (apply run_timer_kept; [done | lia]).
  assert (now w2 = now w + dt + elapsed es) as Hnow2
    by (subst w2; rewrite run_now; lia).
  split_and!; try done.
  - apply (elapse_due dt' w2 (now w + 1000)); [done | lia].
  - apply (elapse_due dt' w2 (now w + 1000)); [done | lia].
  - subst w3. by rewrite elapse_unlocked.
  - subst w3. by rewrite elapse_sessionStorage.
Qed.

Lemma stale_timer_fires_after_clear_witness :
  let w := clickDigit D2 (clickDigit D1 (mount ∅ [])) in
  let w1 := clickClear (elapse 200 (clickDigit D4 w)) in
  let w2 := run storeToggle [Elapse 100; ClickDigit D3; Elapse 100;
                             ClickDigit D3] w1 in
  1000 ∈ timers w2 ∧
  code (elapse 600 w2) = "" ∧ error (elapse 600 w2) = false.
Proof.
  intros w w1 w2.
  assert (code w +:+ digitLabel D4 ≠ CODE_LOCK) as Hne by discriminate.
  assert (200 + elapsed [Elapse 100; ClickDigit D3; Elapse 100;
                         ClickDigit D3] < 1000) as Hdt by (simpl; lia).
  assert (1000 ≤ 200 + elapsed [Elapse 100; ClickDigit D3; Elapse 100;
                                ClickDigit D3] + 600) as Hdt'
    by (simpl; lia).
  pose proof (stale_timer_fires_after_clear storeToggle w D4 200
                [Elapse 100; ClickDigit D3; Elapse 100; ClickDigit D3] 600
                eq_refl eq_refl Hne Hdt Hdt') as H.
  cbv zeta in H. destruct H as (_ & Hin & Hc & He & _).
  split; [exact Hin|]. split; [exact Hc | exact He].
Defined.

(** * The entry on the unlocked page *)

(** On the unlocked page no click reaches the entry: only the passing of
    time can change it, the queue or the clock. *)
Lemma step_unlocked_frozen
    (toggle : string → list UrgentTodo → list UrgentTodo)
    (e : Event) (w : World) :
  unlocked w = true → isElapse e = false →
  code (step toggle e w) = code w ∧ timers (step toggle e w) = timers w.
Proof.
  intros Hu He. destruct e as [d| |dt|t|id|r today|items]; cbn [step];
    try done.
  - unfold clickDigit. by rewrite Hu.
  - unfold clickClear. by rewrite Hu.
  - by rewrite Hu.
  - by rewrite Hu.
  - by destruct (settle_gate r today w) as (_ & -> & _ & -> & _).
Qed.

(** An emptied entry stays empty on the unlocked page. *)
Lemma run_unlocked_empty
    (toggle : string → list UrgentTodo → list UrgentTodo)
    (es : list Event) (w : World) :
  unlocked w = true → code w = "" → code (run toggle es w) = "".
Proof.
  revert w. induction es as [|e es IH]; intros w Hu Hc; [done|].
  rewrite run_cons. apply IH; [by apply step_unlocked|].
  destruct (isElapse e) eqn:He.
  - destruct e as [| |dt| | | |]; try done. cbn [step].
    destruct (elapse_together dt w) as [[? _]|[? _]]; congruence.
  - destruct (step_unlocked_frozen toggle e w Hu He) as [-> _]. done.
Qed.

(** On the unlocked page the entry is what it was, or empty. *)
Lemma run_unlocked_either
    (toggle : string → list UrgentTodo → list UrgentTodo)
    (es : list Event) (w : World) :
  unlocked w = true →
  code (run toggle es w) = code w ∨ code (run toggle es w) = "".
Proof.
  revert w. induction es as [|e es IH]; intros w Hu; [by left|].
  rewrite run_cons. destruct (isElapse e) eqn:He.
  - destruct e as [| |dt| | | |]; try done. cbn [step].
    destruct (elapse_together dt w) as [[Ec _]|[Ec _]].
    + right. apply run_unlocked_empty; [by rewrite elapse_unlocked | done].
    + rewrite <- Ec. apply IH. by rewrite elapse_unlocked.
  - destruct (step_unlocked_frozen toggle e w Hu He) as [Ec _].
    rewrite <- Ec. apply IH. by apply step_unlocked.
Qed.

(** On the unlocked page the entry is kept while every deadline is
    ahead. *)
Lemma run_unlocked_kept
    (toggle : string → list UrgentTodo → list UrgentTodo)
    (es : list Event) (w : World) :
  unlocked w = true →
  Forall (λ t, now w + elapsed es < t) (timers w) →
  code (run toggle es w) = code w.
Proof.
  revert w. induction es as [|e es IH]; intros w Hu Hall; [done|].
  rewrite run_cons. rewrite (elapsed_cons e es) in Hall.
  destruct (isElapse e) eqn:He.
  - destruct e as [| |dt| | | |]; try done. cbn [step].
    assert (Forall (λ t, now w + dt < t) (timers w)) as Hdt.
    { eapply Forall_impl; [exact Hall|]. simpl. intros t. lia. }
    destruct (elapse_ahead dt w Hdt) as (Ec & _ & Et).
    rewrite IH; [done | by rewrite elapse_unlocked |].
    rewrite Et, elapse_now. eapply Forall_impl; [exact Hall|].
    simpl. intros t. lia.
  - destruct (step_unlocked_frozen toggle e w Hu He) as [Ec Et].
    rewrite IH; [done | by apply step_unlocked |].
    rewrite Et, step_now. eapply Forall_impl; [exact Hall|].
    cbv beta. intros t. lia.
Qed.

(** On the unlocked page the entry is emptied once a deadline is
    reached. *)
Lemma run_unlocked_emptied
    (toggle : string → list UrgentTodo → list UrgentTodo)
    (es : list Event) (w : World) :
  unlocked w = true →
  Forall (λ t, now w < t) (timers w) →
  Exists (λ t, t ≤ now w + elapsed es) (timers w) →
  code (run toggle es w) = "".
Proof.
  revert w. induction es as [|e es IH]; intros w Hu Hfut Hex.
  - exfalso. apply Exists_exists in Hex as (t & Hin & Hle).
    rewrite Forall_forall in Hfut. apply Hfut in Hin. simpl in Hle. lia.
  - rewrite run_cons. rewrite (elapsed_cons e es) in Hex.
    destruct (isElapse e) eqn:He.
    + destruct e as [| |dt| | | |]; try done. cbn [step].
      destruct (elapse_cases dt w)
        as [(_ & _ & Et & Hahead)|(Ec & _)].
      * apply IH; [by rewrite elapse_unlocked | |].
        -- rewrite Et, elapse_now. done.
        -- rewrite Et, elapse_now. eapply Exists_impl; [exact Hex|].
           simpl. intros t. lia.
      * apply run_unlocked_empty; [by rewrite elapse_unlocked | done].
    + destruct (step_unlocked_frozen toggle e w Hu He) as [_ Et].
      assert (elapsed [e] = 0) as E0 by (by destruct e).
      rewrite E0 in Hex.
      apply IH; [by apply step_unlocked | |]; rewrite Et, step_now, E0.
      * eapply Forall_impl; [exact Hfut|]. cbv beta. intros t. lia.
      * eapply Exists_impl; [exact Hex|]. cbv beta. intros t. lia.
Qed.

(** C7 (amended).  When the third digit completes the passcode, the
    transition leaves the three matched digits in the entry (the entry
    equals the passcode) and arms no timer.  Through whatever events
    follow, the entry is the passcode for as long as every callback
    pending from an earlier failed entry has its deadline ahead, is empty
    once such a deadline is reached, and is never anything else. *)
Theorem match_keeps_entry
    (toggle : string → list UrgentTodo → list UrgentTodo)
    (w : World) (d : Digit) (es : list Event) :
  unlocked w = false →
  String.length (code w) = 2 →
  code w +:+ digitLabel d = CODE_LOCK →
  code (clickDigit d w) = CODE_LOCK ∧
  String.length (code (clickDigit d w)) = 3 ∧
  timers (clickDigit d w) = timers w ∧
  (code (run toggle es (clickDigit d w)) = CODE_LOCK ∨
   code (run toggle es (clickDigit d w)) = "") ∧
  (Forall (λ t, now w + elapsed es < t) (timers w) →
   code (run toggle es (clickDigit d w)) = CODE_LOCK) ∧
  (Forall (λ t, now w < t) (timers w) →
   Exists (λ t, t ≤ now w + elapsed es) (timers w) →
   code (run toggle es (clickDigit d w)) = "").
Proof.
  intros Hl H2 Heq.
  assert (clickDigit d w =
          setError false (setItem STORAGE_KEY "true"
            (setUnlocked_true (setCode CODE_LOCK w)))) as E.
  { rewrite clickDigit_enabled by (done || lia).
    by apply handleButtonPress_match. }
  assert (unlocked (clickDigit d w) = true ∧
          code (clickDigit d w) = CODE_LOCK ∧
          timers (clickDigit d w) = timers w ∧
          now (clickDigit d w) = now w) as (Hu & Hc & Ht & Hn).
  { rewrite E. unfold setUnlocked_true. simpl. by rewrite Hl. }
  assert (Forall (λ t, now w + elapsed es < t) (timers w) →
          code (run toggle es (clickDigit d w)) = CODE_LOCK) as Hkept.
  { intros Hall. rewrite run_unlocked_kept; [done..|]. by rewrite Ht, Hn. }
  split_and!; try done.
  - by rewrite Hc.
  - destruct (run_unlocked_either toggle es (clickDigit d w) Hu)
      as [Hsame|Hempty]; [left; by rewrite Hsame | by right].
  - intros Hfut Hex. apply run_unlocked_emptied; [done|..];
      by rewrite Ht, Hn.
Qed.

Lemma match_keeps_entry_witness :
  let w := clickDigit D3 (clickDigit D3 (mount ∅ [])) in
  let es := [ClickTab urgent; Elapse 4000; ClickDigit D7; ClickClear;
             ClickTab upcoming] in
  code (clickDigit D3 w) = CODE_LOCK ∧
  timers (clickDigit D3 w) = [] ∧
  code (run storeToggle es (clickDigit D3 w)) = CODE_LOCK.
Proof.
  intros w es.
  pose proof (match_keeps_entry storeToggle w D3 es
                eq_refl eq_refl eq_refl) as (Hc & _ & Ht & _ & Hkept & _).
  split; [exact Hc|]. split; [exact Ht|].
  apply Hkept. constructor.
Defined.

(** * No lock-out *)

(** In any state of the page, after 1000ms no callback is pending. *)
Lemma elapse_second_no_timers
    (toggle : string → list UrgentTodo → list UrgentTodo)
    (w : World) (dt : nat) :
  reachable toggle w → 1000 ≤ dt → timers (elapse dt w) = [].
Proof.
  intros Hr Hdt.
  destruct (reachable_gateInv toggle w Hr) as (_ & _ & Htm & _).
  rewrite Forall_forall in Htm. rewrite elapse_timers.
  destruct (filter _ _) as [|t l] eqn:E; [done|].
  assert (t ∈ filter (λ d, now w + dt < d) (timers w)) as Hin
    by (rewrite E; left).
  apply list_elem_of_filter in Hin as [Hlt Hin]. apply Htm in Hin. lia.
Qed.

(** A first or second digit typed after a wait, with every deadline still
    ahead, is added to the entry. *)
Lemma digit_after_wait (g : nat) (d : Digit) (w : World) :
  unlocked w = false → String.length (code w) < 2 →
  Forall (λ t, now w + g < t) (timers w) →
  unlocked (clickDigit d (elapse g w)) = false ∧
  code (clickDigit d (elapse g w)) = code w +:+ digitLabel d ∧
  timers (clickDigit d (elapse g w)) = timers w ∧
  now (clickDigit d (elapse g w)) = now w + g.
Proof.
  intros Hu Hlen Hall.
  destruct (elapse_ahead g w Hall) as (Ec & _ & Et).
  assert (unlocked (elapse g w) = false) as Hu'
    by (by rewrite elapse_unlocked).
  rewrite clickDigit_enabled by (done || rewrite Ec; lia).
  rewrite handleButtonPress_short
    by (rewrite Ec, length_app, digitLabel_length; lia).
  unfold setCode. cbn [unlocked code timers now].
  rewrite Hu', Ec, Et, elapse_now. done.
Qed.

(** Clear, then 3, 3, 3 with any waits between the clicks, unlocks when
    every deadline lies beyond the last click. *)
Lemma passcode_after_clear (g1 g2 g3 : nat) (w : World) :
  unlocked w = false →
  Forall (λ t, now w + g1 + g2 + g3 < t) (timers w) →
  let w' := clickDigit D3 (elapse g3 (clickDigit D3 (elapse g2
              (clickDigit D3 (elapse g1 (clickClear w)))))) in
  unlocked w' = true ∧ getItem STORAGE_KEY w' = Some "true" ∧
  error w' = false.
Proof.
  intros Hu Hall. cbv zeta.
  assert (unlocked (clickClear w) = false ∧ code (clickClear w) = "" ∧
          timers (clickClear w) = timers w ∧ now (clickClear w) = now w)
    as (Hu0 & Hc0 & Ht0 & Hn0) by (unfold clickClear; by rewrite Hu).
  destruct (digit_after_wait g1 D3 (clickClear w)) as (Hu1 & Hc1 & Ht1 & Hn1);
    [done | rewrite Hc0; simpl; lia | |].
  { rewrite Ht0, Hn0. eapply Forall_impl; [exact Hall|].
    cbv beta. intros t. lia. }
  set (w1 := clickDigit D3 (elapse g1 (clickClear w))) in *.
  rewrite Hc0 in Hc1. rewrite Ht0 in Ht1. rewrite Hn0 in Hn1.
  destruct (digit_after_wait g2 D3 w1) as (Hu2 & Hc2 & Ht2 & Hn2);
    [done | rewrite Hc1; simpl; lia | |].
  { rewrite Ht1, Hn1. eapply Forall_impl; [exact Hall|].
    cbv beta. intros t. lia. }
  set (w2 := clickDigit D3 (elapse g2 w1)) in *.
  rewrite Hc1 in Hc2. rewrite Ht1 in Ht2. rewrite Hn1 in Hn2.
  assert (Forall (λ t, now w2 + g3 < t) (timers w2)) as Hall3.
  { rewrite Ht2, Hn2. eapply Forall_impl; [exact Hall|].
    cbv beta. intros t. lia. }
  destruct (elapse_ahead g3 w2 Hall3) as (Ec3 & _ & _).
  assert (unlocked (elapse g3 w2) = false) as Hu3
    by (by rewrite elapse_unlocked).
  assert (String.length (code (elapse g3 w2)) = 2) as Hl3
    by (by rewrite Ec3, Hc2).
  pose proof (third_digit_pressed (elapse g3 w2) D3 Hu3 Hl3) as H.
  cbv zeta in H. rewrite Ec3, Hc2 in H.
  by rewrite decide_True in H by done.
Qed.

(** X1.  There is no lock-out.  In any state of the page with the gate
    locked, once 1000ms have passed (or sooner, if every pending deadline
    lies beyond the last click), Clear followed by 3, 3, 3 unlocks the
    gate, stores the marker and leaves the error flag down, whatever time
    passes between the clicks. *)
Theorem clear_then_passcode_unlocks
    (toggle : string → list UrgentTodo → list UrgentTodo)
    (w : World) (g0 g1 g2 g3 : nat) :
  reachable toggle w →
  unlocked w = false →
  1000 ≤ g0 ∨ Forall (λ t, now w + g0 + g1 + g2 + g3 < t) (timers w) →
  let w' := run toggle [Elapse g0; ClickClear; Elapse g1; ClickDigit D3;
                        Elapse g2; ClickDigit D3; Elapse g3;
                        ClickDigit D3] w in
  unlocked w' = true ∧ getItem STORAGE_KEY w' = Some "true" ∧
  error w' = false.
Proof.
  intros Hr Hu Hwait. cbv zeta. rewrite !run_cons.
  change (run toggle [] ?x) with x. cbn [step].
  apply passcode_after_clear; [by rewrite elapse_unlocked|].
  rewrite elapse_now. destruct Hwait as [H1000|Hall].
  - by rewrite (elapse_second_no_timers toggle w g0 Hr H1000).
  - rewrite elapse_timers. apply Forall_forall. intros t Hin.
    apply list_elem_of_filter in Hin as [_ Hin].
    rewrite Forall_forall in Hall. apply Hall in Hin. lia.
Qed.

Lemma clear_then_passcode_unlocks_witness :
  let w := run storeToggle [ClickDigit D1; ClickDigit D2; ClickDigit D4;
                            Elapse 500] (mount ∅ []) in
  error w = true ∧ timers w = [1000] ∧
  unlocked (run storeToggle
              [Elapse 1000; ClickClear; Elapse 200; ClickDigit D3;
               Elapse 200; ClickDigit D3; Elapse 200; ClickDigit D3] w)
    = true.
Proof.
  intros w. split; [reflexivity|]. split; [reflexivity|].
  assert (reachable storeToggle w) as Hr
    by (repeat apply reachable_step; apply reachable_mount).
  apply (clear_then_passcode_unlocks storeToggle w 1000 200 200 200 Hr
           eq_refl (or_introl (le_n 1000))).
Defined.

(** * The comparator on the strings the page sorts *)

(** On ISO dates and on zero-padded times the modelled [localeCompare]
    gives the order of the calendar and of the clock: negative for
    earlier, zero for equal, positive for later. *)
Lemma localeCompare_wellFormed
    (ca cb : CalDate) (ta tb : TimeOfDay) :
  wfCal ca → wfCal cb → wfTime ta → wfTime tb →
  localeCompare (isoDate ca) (isoDate cb)
    = match cal_compare ca cb with Lt => -1 | Eq => 0 | Gt => 1 end%Z ∧
  localeCompare (isoTime ta) (isoTime tb)
    = match time_compare ta tb with Lt => -1 | Eq => 0 | Gt => 1 end%Z.
Proof.
  intros Hca Hcb Hta Htb. unfold localeCompare.
  by rewrite isoDate_compare, isoTime_compare.
Qed.
